(** * Profile record reconciliation: a shallow embedding of
      [profileRecordUtils.ts]

    The four transformations of the profile editor are embedded as functions
    over [seq]:

    - [profileRecordsToRecordOptions], the fold of a record list into the
      update payload;
    - [profileEditorFormToProfileRecords] and
      [profileRecordsToProfileEditorForm], the two directions of the form
      normaliser;
    - [profileToProfileRecords], the classifier with its stable sort;
    - [getProfileRecordsDiff], the diff engine.

    JavaScript strings are modelled as [string], read as sequences of code
    units below 256.  A missing optional field ([undefined]) is [None]. *)

From Stdlib Require Import String Ascii ZArith Lia.
From HB Require Import structures.
From mathcomp Require Import ssreflect ssrfun ssrbool eqtype ssrnat div seq path.

Set Implicit Arguments.
Unset Strict Implicit.
Unset Printing Implicit Defensive.

(** ** Strings *)

HB.instance Definition _ := hasDecEq.Build string String.eqb_spec.

Module Js.

(** Code units removed by [String.prototype.trim]: TAB, LF, VT, FF, CR,
    SPACE and NBSP. *)
Definition isWhiteSpace (c : ascii) : bool :=
  let n := nat_of_ascii c in
  [|| n == 9, n == 10, n == 11, n == 12, n == 13, n == 32 | n == 160].

Fixpoint trimStart (s : string) : string :=
  match s with
  | EmptyString => EmptyString
  | String c s' => if isWhiteSpace c then trimStart s' else s
  end.

Fixpoint trimEnd (s : string) : string :=
  match s with
  | EmptyString => EmptyString
  | String c s' =>
      let t := trimEnd s' in
      if isWhiteSpace c && (t == EmptyString) then EmptyString else String c t
  end.

Definition trim (s : string) : string := trimEnd (trimStart s).

(** [!!s] for a string. *)
Definition truthy (s : string) : bool := s != EmptyString.

(** [!!v] for [v : string | undefined]. *)
Definition otruthy (v : option string) : bool :=
  if v is Some s then truthy s else false.

(** [a || b] on strings. *)
Definition or (a b : string) : string := if truthy a then a else b.

(** [v || ''] and the destructuring default [value = ''] agree on
    [string | undefined]: both give the string, or [''] when it is missing. *)
Definition orEmpty (v : option string) : string := odflt EmptyString v.

(** [Array.prototype.find]. *)
Fixpoint find (T : Type) (p : pred T) (s : seq T) : option T :=
  match s with
  | [::] => None
  | x :: s' => if p x then Some x else find p s'
  end.

(** [Array.prototype.findIndex]: the index of the first match, [-1] if
    there is none. *)
Definition findIndex (T : Type) (p : pred T) (s : seq T) : Z :=
  if has p s then Z.of_nat (seq.find p s) else (-1)%Z.

End Js.

(** ** Records *)

Inductive ProfileRecordGroup : Type :=
  | media | general | social | address | website | other | custom.

Definition group_code (g : ProfileRecordGroup) : nat :=
  match g with
  | media => 0 | general => 1 | social => 2 | address => 3
  | website => 4 | other => 5 | custom => 6
  end.

Definition code_group (n : nat) : ProfileRecordGroup :=
  match n with
  | 0 => media | 1 => general | 2 => social | 3 => address
  | 4 => website | 5 => other | _ => custom
  end.

Lemma group_codeK : cancel group_code code_group.
Proof. by case. Qed.

HB.instance Definition _ :=
  Equality.copy ProfileRecordGroup (can_type group_codeK).

(** [ProfileRecord]: [type] is kept as the string tag the code compares
    with [===]; [value] is optional. *)
Record ProfileRecord : Type := mkRecord {
  key : string;
  type : string;
  group : ProfileRecordGroup;
  value : option string
}.

Definition record_tuple (r : ProfileRecord) :=
  (key r, type r, group r, value r).

Definition tuple_record (t : string * string * ProfileRecordGroup * option string) :=
  let: (k, t, g, v) := t in mkRecord k t g v.

Lemma record_tupleK : cancel record_tuple tuple_record.
Proof. by case. Qed.

HB.instance Definition _ :=
  Equality.copy ProfileRecord (can_type record_tupleK).

Definition s_avatar : string := "avatar"%string.
Definition s_text : string := "text"%string.
Definition s_addr : string := "addr"%string.
Definition s_contenthash : string := "contenthash"%string.
Definition s_abi : string := "abi"%string.

(** ** The diff engine *)

(** The test [previousRecord.key === currentRecord.key &&
    previousRecord.group === currentRecord.group], also used with the roles
    exchanged. *)
Definition sameKeyGroup (a b : ProfileRecord) : bool :=
  (key b == key a) && (group b == group a).

Definition updatedAndNewRecords
    (currentRecords previousRecords : seq ProfileRecord) : seq ProfileRecord :=
  pmap id
    [seq (let identicalRecord :=
            Js.find (sameKeyGroup currentRecord) previousRecords in
          if ~~ Js.otruthy (value currentRecord) then None
          else if identicalRecord is Some identical then
                 if value identical != value currentRecord
                 then Some currentRecord else None
               else Some currentRecord)
    | currentRecord <- currentRecords].

Definition deletedRecords
    (currentRecords previousRecords : seq ProfileRecord) : seq ProfileRecord :=
  [seq mkRecord (key r) (type r) (group r) (Some EmptyString)
  | r <- [seq previousRecord <- previousRecords
         | if group previousRecord == website
           then Z.eqb (Js.findIndex
                         (fun currentRecord => group currentRecord == website)
                         currentRecords) (-1)
           else Z.eqb (Js.findIndex (sameKeyGroup previousRecord) currentRecords)
                      (-1)]].

Definition getProfileRecordsDiff
    (currentRecords previousRecords : seq ProfileRecord) : seq ProfileRecord :=
  updatedAndNewRecords currentRecords previousRecords
    ++ deletedRecords currentRecords previousRecords.

(** ** The update payload *)

Module Text.
Record t : Type := mk { key : string; value : string }.
Definition to_pair (x : t) := (key x, value x).
Definition of_pair (p : string * string) := mk p.1 p.2.
Lemma text_pairK : cancel to_pair of_pair.
Proof. by case. Qed.
End Text.

HB.instance Definition _ := Equality.copy Text.t (can_type Text.text_pairK).

Module Coin.
Record t : Type := mk { coin : string; value : string }.
Definition to_pair (x : t) := (coin x, value x).
Definition of_pair (p : string * string) := mk p.1 p.2.
Lemma coin_pairK : cancel to_pair of_pair.
Proof. by case. Qed.
End Coin.

HB.instance Definition _ := Equality.copy Coin.t (can_type Coin.coin_pairK).

Record AbiOption : Type := mkAbi { contentType : Z; encodedData : string }.

Record RecordOptions : Type := mkOptions {
  clearRecords : bool;
  texts : option (seq Text.t);
  coins : option (seq Coin.t);
  contentHash : option string;
  abi : option AbiOption
}.

(** [stringToHex] of viem: ["0x"] followed by two lower-case hexadecimal
    digits per byte of the UTF-8 encoding of the string. *)
Module Hex.

Definition digit (n : nat) : ascii :=
  ascii_of_nat (if n < 10 then 48 + n else 87 + n).

Definition byte (n : nat) (rest : string) : string :=
  String (digit (n %/ 16)) (String (digit (n %% 16)) rest).

(** UTF-8 of one code unit below 256: one byte below 128, two above. *)
Definition utf8 (c : ascii) : seq nat :=
  let n := nat_of_ascii c in
  if n < 128 then [:: n] else [:: 192 + n %/ 64; 128 + n %% 64].

Fixpoint bytes (s : string) : seq nat :=
  match s with
  | EmptyString => [::]
  | String c s' => utf8 c ++ bytes s'
  end.

Definition stringToHex (s : string) : string :=
  String "0" (String "x" (foldr byte EmptyString (bytes s))).

End Hex.

(** ** The options builder *)

Definition withTexts (options : RecordOptions) (ts : seq Text.t) :=
  mkOptions (clearRecords options) (Some ts) (coins options)
    (contentHash options) (abi options).

Definition withCoins (options : RecordOptions) (cs : seq Coin.t) :=
  mkOptions (clearRecords options) (texts options) (Some cs)
    (contentHash options) (abi options).

Definition withContentHash (options : RecordOptions) (h : string) :=
  mkOptions (clearRecords options) (texts options) (coins options)
    (Some h) (abi options).

Definition withAbi (options : RecordOptions) (a : AbiOption) :=
  mkOptions (clearRecords options) (texts options) (coins options)
    (contentHash options) (Some a).

(** The reducer passed to [profileRecords.reduce]. *)
Definition recordOptionsReducer
    (options : RecordOptions) (record : ProfileRecord) : RecordOptions :=
  if ~~ Js.truthy (key record) then options else
  let recordItem :=
    Text.mk (Js.trim (key record)) (Js.trim (Js.orEmpty (value record))) in
  if key record == s_avatar then
    let currentAvatarValue :=
      Js.orEmpty
        (omap Text.value
           (obind (Js.find (fun r => Text.key r == s_avatar)) (texts options))) in
    let defaultAvatarValue :=
      if [&& Js.truthy currentAvatarValue, Js.truthy (Text.value recordItem)
           & group record == media]
      then Text.value recordItem else currentAvatarValue in
    let newAvatarValue :=
      Js.or (Js.or defaultAvatarValue currentAvatarValue)
        (Text.value recordItem) in
    withTexts options
      (odflt [::]
         (omap (filter (fun r => Text.key r != s_avatar)) (texts options))
       ++ [:: Text.mk s_avatar newAvatarValue])
  else if type record == s_text then
    withTexts options
      (odflt [::]
         (omap (filter (fun r => Text.key r != Text.key recordItem))
            (texts options))
       ++ [:: recordItem])
  else if type record == s_addr then
    withCoins options
      (odflt [::]
         (omap (filter (fun r => Coin.coin r != Text.key recordItem))
            (coins options))
       ++ [:: Coin.mk (key record) (Js.orEmpty (value record))])
  else if type record == s_contenthash then
    withContentHash options (Text.value recordItem)
  else if type record == s_abi then
    withAbi options (mkAbi 1 (Hex.stringToHex (Text.value recordItem)))
  else options.

(** [profileRecords] defaults to the empty list and [clearRecords] to
    [false] when the caller leaves them out. *)
Definition profileRecordsToRecordOptions
    (profileRecords : seq ProfileRecord) (clearRecords : bool) : RecordOptions :=
  foldl recordOptionsReducer
    (mkOptions clearRecords None None None None) profileRecords.

(** ** The form normaliser *)

Record ProfileEditorForm : Type := mkForm {
  avatar : string;
  records : seq ProfileRecord
}.

Definition profileEditorFormToProfileRecords
    (data : ProfileEditorForm) : seq ProfileRecord :=
  records data
    ++ (if Js.truthy (avatar data)
        then [:: mkRecord s_avatar s_text media (Some (avatar data))]
        else [::]).

(** The reducer passed to [records.reduce]. *)
Definition formReducer
    (result : ProfileEditorForm) (record : ProfileRecord) : ProfileEditorForm :=
  if (key record == s_avatar) && (group record == media)
  then mkForm (Js.orEmpty (value record)) (records result)
  else
    let normalizedRecord :=
      mkRecord (key record) (type record) (group record)
        (Some (Js.orEmpty (value record))) in
    mkForm (avatar result) (records result ++ [:: normalizedRecord]).

Definition profileRecordsToProfileEditorForm
    (rs : seq ProfileRecord) : ProfileEditorForm :=
  foldl formReducer (mkForm EmptyString [::]) rs.

(** ** The classifier *)

Definition unknownGroupValue (g : ProfileRecordGroup) : Z :=
  match g with
  | media => 1
  | general => 199
  | social => 299
  | address => 399
  | website => 499
  | other => 599
  | custom => 999
  end.

(** A number as a comparator returns it: the difference of two values is
    [NaN] as soon as one of them is not a number. *)
Inductive JsNumber : Type :=
  | Finite (n : Z)
  | NaN.

(** [v <= 0], false for [NaN]. *)
Definition leZero (v : JsNumber) : bool :=
  if v is Finite n then Z.leb n 0 else false.

(** [v] and [w] are numbers of opposite sign (or both zero). *)
Definition signsOpposite (v w : JsNumber) : bool :=
  match v, w with
  | Finite m, Finite n => Z.eqb (Z.sgn m) (- Z.sgn n)
  | _, _ => false
  end.

(** A consistent comparator on the elements of [s]: every comparison is a
    number, exchanging the arguments exchanges the sign, and [<= 0] is
    transitive. *)
Definition consistentOn (T : Type) (compareFn : T -> T -> JsNumber)
    (s : seq T) : bool :=
  all (fun a =>
         all (fun b =>
                signsOpposite (compareFn a b) (compareFn b a)
                && all (fun c =>
                          leZero (compareFn a b) && leZero (compareFn b c)
                          ==> leZero (compareFn a c)) s) s) s.

(** With a comparator that is not consistent the order of the result is
    left to the engine.  A [SortEngine] stands for that choice: from the
    outcomes of the comparisons between positions and the length, an order of
    the positions.  An answer that is not a permutation of the positions is
    ignored. *)
Definition SortEngine : Type := (nat -> nat -> JsNumber) -> nat -> seq nat.

Definition engineSort (T : Type) (engine : SortEngine)
    (compareFn : T -> T -> JsNumber) (s : seq T) : seq T :=
  match s with
  | [::] => [::]
  | x :: _ =>
      let order :=
        engine (fun i j => compareFn (nth x s i) (nth x s j)) (size s) in
      if perm_eq order (iota 0 (size s)) then [seq nth x s i | i <- order]
      else s
  end.

(** [Array.prototype.sort] with a comparator: for a consistent comparator,
    the stable sort that puts [a] before [b] when [compareFn a b <= 0];
    otherwise the order the engine chooses. *)
Definition Array_sort (T : Type) (engine : SortEngine)
    (compareFn : T -> T -> JsNumber) (s : seq T) : seq T :=
  if consistentOn compareFn s then sort (fun a b => leZero (compareFn a b)) s
  else engineSort engine compareFn s.

(** What reading a property of a table object gives: nothing, one of its own
    numeric entries, or a member inherited from [Object.prototype], which is
    a function or an object and not a number. *)
Inductive TableValue : Type :=
  | Missing
  | Rank (n : Z)
  | Inherited.

Definition objectPrototypeKeys : seq string :=
  [:: "constructor"; "__proto__"; "hasOwnProperty"; "isPrototypeOf";
      "propertyIsEnumerable"; "toLocaleString"; "toString"; "valueOf";
      "__defineGetter__"; "__defineSetter__"; "__lookupGetter__";
      "__lookupSetter__"]%string.

(** [table[k]] for a plain object with the own entries [own]. *)
Definition objectLookup (own : string -> option Z) (k : string) : TableValue :=
  if own k is Some n then Rank n
  else if k \in objectPrototypeKeys then Inherited
  else Missing.

(** The value of [x || unknownGroupValue[group]]: a number, or the inherited
    member itself. *)
Inductive SortValue : Type :=
  | Num (n : Z)
  | NotNumber.

Record ProfileText : Type := mkProfileText {
  text_key : string;
  text_value : string
}.

Record ProfileCoin : Type := mkProfileCoin {
  coin_name : string;
  coin_value : string
}.

Section Classifier.

(** The collaborators of the classifier that live outside this file: the
    priority table [sortValues] of [profileRecordOptions], the two key lists
    loaded from JSON, the content-hash helpers and [JSON.stringify]. *)
Variables ContentHash Abi : Type.
Variable sortValues : ProfileRecordGroup -> option (string -> option Z).
Variable toLowerCase : string -> string.
Variables supportedGeneralRecordKeys supportedAccounts : seq string.
Variable contentHashToString : option ContentHash -> string.
Variable getProtocolType : string -> option string.
Variable getInternalCodec : string -> option string.
Variable JSON_stringify : Abi -> string.
Variable engine : SortEngine.

(** [profile_abi] is [records.abi]; its inner [abi] is [None] when the
    descriptor is missing or falsy. *)
Record Profile : Type := mkProfile {
  profile_texts : option (seq ProfileText);
  profile_coins : option (seq ProfileCoin);
  profile_contentHash : option ContentHash;
  profile_abi : option (option Abi)
}.

(** [sortValues[record.group]?.[record.key.toLowerCase()]]: [sortValues]
    gives, for a group, the own entries of its table object when it has
    one. *)
Definition tableValue (record : ProfileRecord) : TableValue :=
  if sortValues (group record) is Some own
  then objectLookup own (toLowerCase (key record))
  else Missing.

(** [tableValue || unknownGroupValue[record.group]]: the fallback is taken
    when the lookup is [undefined] and also when it is the falsy number [0];
    an inherited member is truthy and is kept. *)
Definition recordSortValue (record : ProfileRecord) : SortValue :=
  match tableValue record with
  | Missing => Num (unknownGroupValue (group record))
  | Rank n => if Z.eqb n 0 then Num (unknownGroupValue (group record)) else Num n
  | Inherited => NotNumber
  end.

Definition sortProfileRecords (recordA recordB : ProfileRecord) : JsNumber :=
  let recordAValue := recordSortValue recordA in
  let recordBValue := recordSortValue recordB in
  match recordAValue, recordBValue with
  | Num a, Num b => Finite (a - b)
  | _, _ => NaN
  end.

Definition profileTexts (profile : option Profile) : seq ProfileRecord :=
  odflt [::]
    (omap
       (map (fun t =>
               if text_key t == s_avatar
               then mkRecord (text_key t) s_text media (Some (text_value t))
               else
                 let g :=
                   if text_key t \in supportedGeneralRecordKeys then general
                   else if text_key t \in supportedAccounts then social
                   else custom in
                 mkRecord (text_key t) s_text g (Some (text_value t))))
       (obind profile_texts profile)).

Definition profileAddresses (profile : option Profile) : seq ProfileRecord :=
  odflt [::]
    (omap
       (map (fun c => mkRecord (coin_name c) s_addr address (Some (coin_value c))))
       (obind profile_coins profile)).

Definition profileWebsite (profile : option Profile) : seq ProfileRecord :=
  let contentHashStr :=
    contentHashToString (obind profile_contentHash profile) in
  let protocolKey := obind getInternalCodec (getProtocolType contentHashStr) in
  if protocolKey is Some k then
    if Js.truthy k
    then [:: mkRecord k s_contenthash website (Some contentHashStr)]
    else [::]
  else [::].

Definition profileAbi (profile : option Profile) : seq ProfileRecord :=
  if obind id (obind profile_abi profile) is Some a
  then [:: mkRecord s_abi s_abi other (Some (JSON_stringify a))]
  else [::].

Definition profileToProfileRecords (profile : option Profile) : seq ProfileRecord :=
  let profileRecords :=
    profileTexts profile ++ profileAddresses profile
      ++ profileWebsite profile ++ profileAbi profile in
  Array_sort engine sortProfileRecords profileRecords.

End Classifier.

(** ** The behaviour as the specification words it *)

(** Step 2 of the diff: a previous record is deleted when no current record
    has its [(key, group)]; a previous website record, when no current record
    is a website record. *)
Definition specDeleted (current : seq ProfileRecord) (p : ProfileRecord) : bool :=
  if group p == website then ~~ has (fun c => group c == website) current
  else ~~ has (fun c => (key c == key p) && (group c == group p)) current.

Definition tombstone (p : ProfileRecord) : ProfileRecord :=
  mkRecord (key p) (type p) (group p) (Some EmptyString).

(** Step 1 of the diff: a current record is a change when its value is not
    empty and either no previous record has its [(key, group)] or the
    matched one carries another value. *)
Definition specChanged (previous : seq ProfileRecord) (c : ProfileRecord) : bool :=
  let same := fun p => (key p == key c) && (group p == group c) in
  Js.otruthy (value c)
  && (~~ has same previous
      || (omap value (Js.find same previous) != Some (value c))).

(** The key under which the reducer writes a record into the text bucket,
    if it does: ['avatar'] for an avatar record, the trimmed key for a
    record of type [text]. *)
Definition textKey (r : ProfileRecord) : option string :=
  if key r == EmptyString then None
  else if key r == s_avatar then Some s_avatar
  else if type r == s_text then Some (Js.trim (key r))
  else None.

(** A record that reaches the [type === 'addr'] branch of the reducer. *)
Definition isAddrRecord (r : ProfileRecord) : bool :=
  [&& key r != EmptyString, key r != s_avatar & type r == s_addr].

(** A record that reaches the [type === 'text'] branch of the reducer. *)
Definition isTextRecord (r : ProfileRecord) : bool :=
  [&& key r != EmptyString, key r != s_avatar & type r == s_text].

Definition textsOf (options : RecordOptions) : seq Text.t :=
  odflt [::] (texts options).

Definition coinsOf (options : RecordOptions) : seq Coin.t :=
  odflt [::] (coins options).

(** The avatar value held by a text bucket:
    [texts?.find((r) => r.key === 'avatar')?.value || '']. *)
Definition storedAvatar (ts : seq Text.t) : string :=
  Js.orEmpty (omap Text.value (Js.find (fun t => Text.key t == s_avatar) ts)).

(** The value the avatar branch writes for [r] over the bucket [ts]. *)
Definition newAvatar (ts : seq Text.t) (r : ProfileRecord) : string :=
  let v := Js.trim (Js.orEmpty (value r)) in
  let current := storedAvatar ts in
  Js.or (Js.or (if [&& Js.truthy current, Js.truthy v & group r == media]
                then v else current) current) v.

(** A record that reaches the [type === 'contenthash'] branch. *)
Definition isContenthashRecord (r : ProfileRecord) : bool :=
  [&& key r != EmptyString, key r != s_avatar & type r == s_contenthash].

(** A record that reaches the [type === 'abi'] branch. *)
Definition isAbiRecord (r : ProfileRecord) : bool :=
  [&& key r != EmptyString, key r != s_avatar & type r == s_abi].

(** The last record of [rs] that satisfies [p]. *)
Definition lastOf (p : pred ProfileRecord) (rs : seq ProfileRecord) :=
  Js.find p (rev rs).

(** A record the reducer passes over: empty key, or a key other than
    ['avatar'] with a type that is none of the four known tags. *)
Definition isSkipped (r : ProfileRecord) : bool :=
  (key r == EmptyString)
  || ((key r != s_avatar)
      && (type r \notin [:: s_text; s_addr; s_contenthash; s_abi])).


(** The record the form lifts out as the [avatar] field. *)
Definition isAvatarMedia (r : ProfileRecord) : bool :=
  (key r == s_avatar) && (group r == media).

(** ** Sample records *)

Definition ipns_h2 : ProfileRecord :=
  mkRecord "ipns" s_contenthash website (Some "h2"%string).

Definition ipfs_h1 : ProfileRecord :=
  mkRecord "ipfs" s_contenthash website (Some "h1"%string).

Definition empty_a : ProfileRecord :=
  mkRecord "a" s_text general (Some EmptyString).

Definition text_b1 : ProfileRecord :=
  mkRecord "b" s_text general (Some "1"%string).

Definition text_a1 : ProfileRecord :=
  mkRecord "a" s_text general (Some "1"%string).

Definition text_a2 : ProfileRecord :=
  mkRecord "a" s_text general (Some "2"%string).

(** A text record whose key is ['a'] only after trimming. *)
Definition text_pad_a3 : ProfileRecord :=
  mkRecord " a" s_text custom (Some "3"%string).

Definition avatar_A : ProfileRecord :=
  mkRecord s_avatar s_text media (Some "A"%string).

(** A text record whose key is ['avatar'] only after trimming. *)
Definition text_pad_avatar_B : ProfileRecord :=
  mkRecord " avatar" s_text custom (Some "B"%string).

Definition addr_eth1 : ProfileRecord :=
  mkRecord "ETH" s_addr address (Some "0x1"%string).

Definition addr_eth2 : ProfileRecord :=
  mkRecord "ETH" s_addr address (Some "0x2"%string).

Definition addr_btc : ProfileRecord :=
  mkRecord "BTC" s_addr address (Some "bc1"%string).

(** Address records whose key and value carry surrounding blanks. *)
Definition addr_pad_eth1 : ProfileRecord :=
  mkRecord " ETH" s_addr address (Some " 0x1 "%string).

Definition addr_pad_eth2 : ProfileRecord :=
  mkRecord " ETH" s_addr address (Some "0x2"%string).

Definition empty_key : ProfileRecord :=
  mkRecord EmptyString s_text general (Some "x"%string).

Definition unknown_type : ProfileRecord :=
  mkRecord "k" "pubkey" other (Some "x"%string).

(** A lower-casing function, a priority table and a profile to run the
    classifier on. *)
Definition lowerAscii (c : ascii) : ascii :=
  let n := nat_of_ascii c in
  if (65 <= n) && (n <= 90) then ascii_of_nat (n + 32) else c.

Fixpoint lowerString (s : string) : string :=
  match s with
  | EmptyString => EmptyString
  | String c s' => String (lowerAscii c) (lowerString s')
  end.

Definition sampleSortValues (g : ProfileRecordGroup)
  : option (string -> option Z) :=
  match g with
  | general =>
      Some (fun k => if k == "name"%string then Some 101%Z
                     else if k == "url"%string then Some 102%Z else None)
  | address => Some (fun k => if k == "eth"%string then Some 301%Z else None)
  | _ => None
  end.

Definition sampleProfile : Profile unit unit :=
  mkProfile
    (Some [:: mkProfileText "zzz" "1"; mkProfileText "URL" "u";
              mkProfileText "yyy" "2"; mkProfileText "avatar" "pic";
              mkProfileText "name" "n"])
    (Some [:: mkProfileCoin "BTC" "bc1"; mkProfileCoin "ETH" "0x1"])
    None None.

(** ** Vocabulary of the further properties *)

Definition keyGroup (r : ProfileRecord) : string * ProfileRecordGroup :=
  (key r, group r).

(** [{ ...record, value: record.value || '' }]. *)
Definition normalizedRecord (r : ProfileRecord) : ProfileRecord :=
  mkRecord (key r) (type r) (group r) (Some (Js.orEmpty (value r))).

(** The record [profileEditorFormToProfileRecords] appends for the avatar. *)
Definition avatarRecord (v : string) : ProfileRecord :=
  mkRecord s_avatar s_text media (Some v).

(** The value of the last avatar/media record, [''] when there is none. *)
Definition lastAvatar (rs : seq ProfileRecord) : string :=
  if lastOf isAvatarMedia rs is Some r then Js.orEmpty (value r)
  else EmptyString.

(** There and back through the form. *)
Definition throughForm (rs : seq ProfileRecord) : seq ProfileRecord :=
  profileEditorFormToProfileRecords (profileRecordsToProfileEditorForm rs).

(** A record the reducer writes into the text bucket. *)
Definition writesText (r : ProfileRecord) : bool := isSome (textKey r).

(** The avatar entries of a text bucket. *)
Definition avatarEntries (ts : seq Text.t) : seq Text.t :=
  [seq t <- ts | Text.key t == s_avatar].

(** The pairing of type and group the classifier produces. *)
Definition wellClassified (r : ProfileRecord) : bool :=
  [&& value r != None
    & [|| (type r == s_text)
          && (group r \in [:: media; general; social; custom])
          && ((group r == media) == (key r == s_avatar)),
          (type r == s_addr) && (group r == address),
          (type r == s_contenthash) && (group r == website)
          && (key r != EmptyString)
        | [&& type r == s_abi, group r == other & key r == s_abi]]].

Definition social_x : ProfileRecord :=
  mkRecord "com.twitter" s_text social (Some "me"%string).

Definition avatar_other_B : ProfileRecord :=
  mkRecord s_avatar s_text custom (Some "B"%string).

Definition avatar_empty : ProfileRecord :=
  mkRecord s_avatar s_text media (Some EmptyString).

Definition blank_key : ProfileRecord :=
  mkRecord " " s_text custom (Some "x"%string).

Definition plainProfile : Profile unit unit :=
  mkProfile
    (Some [:: mkProfileText "zzz" "1"; mkProfileText "name" "n"])
    (Some [:: mkProfileCoin "ETH" "0x1"])
    None None.

(** A record with its type renamed by [t]. *)
Definition retype (t : string -> string) (r : ProfileRecord) : ProfileRecord :=
  mkRecord (key r) (t (type r)) (group r) (value r).

(** A record with its group renamed by [g]. *)
Definition regroup (g : ProfileRecordGroup -> ProfileRecordGroup)
    (r : ProfileRecord) : ProfileRecord :=
  mkRecord (key r) (type r) (g (group r)) (value r).

(** A sort value that is a number. *)
Definition isNumeric (v : SortValue) : bool :=
  if v is Num _ then true else false.

(** The number of a numeric sort value. *)
Definition sortNumber (v : SortValue) : Z :=
  if v is Num n then n else 0%Z.

(** The sort value is the number [v]. *)
Definition isRank (v : Z) (w : SortValue) : bool :=
  if w is Num n then Z.eqb n v else false.

(** An engine that leaves a list in place when the comparator is not
    consistent. *)
Definition keepOrder : SortEngine := fun _ n => iota 0 n.

(** A coin whose name is a member of [Object.prototype]. *)
Definition addr_constructor : ProfileRecord :=
  mkRecord "constructor" s_addr address (Some "x"%string).

Definition inheritedProfile : Profile unit unit :=
  mkProfile None
    (Some [:: mkProfileCoin "BTC" "bc1"; mkProfileCoin "constructor" "x";
              mkProfileCoin "ETH" "0x1"])
    None None.

(** * Properties *)

(** ** JavaScript helpers *)

Lemma find_isSome (T : Type) (p : pred T) (s : seq T) :
  isSome (Js.find p s) = has p s.
Proof. by elim: s => //= x s IH; case: (p x). Qed.

Lemma findIndex_absent (T : Type) (p : pred T) (s : seq T) :
  Z.eqb (Js.findIndex p s) (-1) = ~~ has p s.
Proof.
rewrite /Js.findIndex; case: (has p s) => //=.
by apply/Z.eqb_neq; lia.
Qed.

(** ** The diff engine *)

Lemma updatedAndNewRecords_filter (current previous : seq ProfileRecord) :
  updatedAndNewRecords current previous
  = [seq c <- current | specChanged previous c].
Proof.
rewrite /updatedAndNewRecords; elim: current => //= c current ->.
rewrite /specChanged /sameKeyGroup.
case: (Js.otruthy (value c)) => //=.
rewrite -find_isSome.
case: (Js.find _ previous) => [p|] //=.
by rewrite (inj_eq Some_inj); case: (value p != value c).
Qed.

Lemma deletedRecords_spec (current previous : seq ProfileRecord) :
  deletedRecords current previous
  = [seq tombstone p | p <- previous & specDeleted current p].
Proof.
rewrite /deletedRecords; congr map; apply: eq_filter => p.
by rewrite /specDeleted /sameKeyGroup !findIndex_absent.
Qed.

(** C1, as stated, fails: for current = [ipns/website 'h2'] and
    previous = [ipfs/website 'h1'] the diff holds no deletion record for
    'ipfs'; a current website record keeps every previous website record
    out of the deletions. *)
Lemma website_switch_no_deletion :
  ~ (ipns_h2 \in getProfileRecordsDiff [:: ipns_h2] [:: ipfs_h1]
     /\ tombstone ipfs_h1 \in getProfileRecordsDiff [:: ipns_h2] [:: ipfs_h1]).
Proof. by case=> _; vm_compute. Qed.

(** C1, amended: for current = [ipns/website 'h2'] and
    previous = [ipfs/website 'h1'], getProfileRecordsDiff returns the new
    'ipns' record alone. *)
Theorem website_switch_diff :
  getProfileRecordsDiff [:: ipns_h2] [:: ipfs_h1] = [:: ipns_h2].
Proof. by vm_compute. Qed.

(** C2: the diff is the changed and new records followed by the tombstones
    of exactly the previous records that [specDeleted] selects (no current
    record with the same (key, group); for a website record, no current
    website record at all); the first part is a subsequence of the current
    list, the second the image of a subsequence of the previous one. *)
Theorem diff_deletions (current previous : seq ProfileRecord) :
  [/\ getProfileRecordsDiff current previous
      = updatedAndNewRecords current previous
          ++ [seq tombstone p | p <- previous & specDeleted current p],
      subseq (updatedAndNewRecords current previous) current,
      subseq [seq p <- previous | specDeleted current p] previous
    & all (fun r => value r == Some EmptyString)
          (deletedRecords current previous)].
Proof.
split.
- by rewrite /getProfileRecordsDiff deletedRecords_spec.
- by rewrite updatedAndNewRecords_filter filter_subseq.
- exact: filter_subseq.
- by rewrite deletedRecords_spec all_map; apply/allP.
Qed.

(** C3: the change list is the current list filtered by [specChanged] (value
    not empty, and no previous record with the same (key, group) or a
    matched previous record with another value); a current record with an
    empty value and no previous counterpart is not in the change list, has
    no tombstone among the deletions, and on its own yields a diff with no
    record of its (key, group). *)
Theorem diff_changes (current previous : seq ProfileRecord) :
  updatedAndNewRecords current previous
  = [seq c <- current | specChanged previous c]
  /\ (forall c,
        c \in current -> ~~ Js.otruthy (value c) ->
        ~~ has (sameKeyGroup c) previous ->
        [/\ c \notin updatedAndNewRecords current previous,
            ~~ has (sameKeyGroup c) (deletedRecords current previous)
          & ~~ has (sameKeyGroup c) (getProfileRecordsDiff [:: c] previous)]).
Proof.
split; first exact: updatedAndNewRecords_filter.
move=> c c_in c_empty c_fresh.
have no_tomb cur : ~~ has (sameKeyGroup c) (deletedRecords cur previous).
  rewrite deletedRecords_spec has_map; apply: contra c_fresh.
  by case/hasP=> p; rewrite mem_filter => /andP[_ p_in] /= same; apply/hasP; exists p.
split=> //.
- by rewrite updatedAndNewRecords_filter mem_filter /specChanged (negbTE c_empty).
- rewrite /getProfileRecordsDiff updatedAndNewRecords_filter /=.
  by rewrite /specChanged (negbTE c_empty) /=.
Qed.

Lemma diff_changes_witness :
  [/\ empty_a \in [:: empty_a], ~~ Js.otruthy (value empty_a),
      ~~ has (sameKeyGroup empty_a) [:: text_b1]
    & ~~ has (sameKeyGroup empty_a)
         (getProfileRecordsDiff [:: empty_a] [:: text_b1])].
Proof.
have [_ H] := diff_changes [:: empty_a] [:: text_b1].
have [//|//|//|_ _ H3] := H empty_a.
by split.
Defined.

(** ** Trimming *)





(** ** The options builder, one step *)

Lemma textsOf_reducer (o : RecordOptions) (r : ProfileRecord) :
  textsOf (recordOptionsReducer o r)
  = if textKey r is Some k then
      [seq t <- textsOf o | Text.key t != k]
        ++ [:: Text.mk k (if key r == s_avatar then newAvatar (textsOf o) r
                          else Js.trim (Js.orEmpty (value r)))]
    else textsOf o.
Proof.
rewrite /recordOptionsReducer /textKey /Js.truthy.
case: (key r == EmptyString) => //=.
case: (key r == s_avatar) => /=.
  by rewrite /textsOf /newAvatar /storedAvatar /=; case: (texts o).
case: (type r == s_text) => /=.
  by rewrite /textsOf /=; case: (texts o).
by do 3![case: ifP => // _].
Qed.

Lemma coinsOf_reducer (o : RecordOptions) (r : ProfileRecord) :
  coinsOf (recordOptionsReducer o r)
  = if isAddrRecord r then
      [seq c <- coinsOf o | Coin.coin c != Js.trim (key r)]
        ++ [:: Coin.mk (key r) (Js.orEmpty (value r))]
    else coinsOf o.
Proof.
rewrite /recordOptionsReducer /isAddrRecord /Js.truthy.
case: (key r == EmptyString) => //=.
case: (key r == s_avatar) => //=.
case: ifP => [/eqP-> //|_].
case: ifP => [_|_]; first by rewrite /coinsOf /=; case: (coins o).
by do 2![case: ifP => // _].
Qed.

(** ** Upserting by filter-then-append *)

Section Upsert.

Variables (T K : eqType) (f : T -> K).

Lemma upsert_keys (s : seq T) (x : T) :
  [seq f t | t <- [seq t <- s | f t != f x] ++ [:: x]]
  = rcons [seq k <- [seq f t | t <- s] | k != f x] (f x).
Proof. by rewrite map_cat cats1 filter_map. Qed.

Lemma upsert_hit (s : seq T) (x : T) :
  [seq t <- [seq t <- s | f t != f x] ++ [:: x] | f t == f x] = [:: x].
Proof.
rewrite filter_cat /= eqxx -filter_predI (@eq_filter _ _ pred0) ?filter_pred0 //.
by move=> t /=; case: (f t == f x).
Qed.

Lemma upsert_miss (s : seq T) (x : T) (k : K) :
  f x != k ->
  [seq t <- [seq t <- s | f t != f x] ++ [:: x] | f t == k]
  = [seq t <- s | f t == k].
Proof.
move=> xk; rewrite filter_cat /= (negbTE xk) cats0 -filter_predI.
apply: eq_filter => t /=; case: eqP => //= ->.
by rewrite eq_sym xk.
Qed.

End Upsert.

(** ** The options builder, folded *)

Lemma options_rcons (rs : seq ProfileRecord) (r : ProfileRecord) (clear : bool) :
  profileRecordsToRecordOptions (rcons rs r) clear
  = recordOptionsReducer (profileRecordsToRecordOptions rs clear) r.
Proof. by rewrite /profileRecordsToRecordOptions -cats1 foldl_cat. Qed.

Lemma options_cat (rs1 rs2 : seq ProfileRecord) (clear : bool) :
  profileRecordsToRecordOptions (rs1 ++ rs2) clear
  = foldl recordOptionsReducer (profileRecordsToRecordOptions rs1 clear) rs2.
Proof. by rewrite /profileRecordsToRecordOptions foldl_cat. Qed.

Lemma text_keys (rs : seq ProfileRecord) (clear : bool) :
  [seq Text.key t | t <- textsOf (profileRecordsToRecordOptions rs clear)]
  = undup (pmap textKey rs).
Proof.
elim/last_ind: rs => [|rs r IH] //.
rewrite options_rcons textsOf_reducer -cats1 pmap_cat /=.
case: (textKey r) => [k|] /=; last by rewrite cats0.
by rewrite (upsert_keys Text.key _ (Text.mk k _)) IH -undup_rcons -cats1.
Qed.

Lemma texts_written (o : RecordOptions) (r : ProfileRecord) (k : string) :
  textKey r = Some k ->
  [seq t <- textsOf (recordOptionsReducer o r) | Text.key t == k]
  = [:: Text.mk k (if key r == s_avatar then newAvatar (textsOf o) r
                   else Js.trim (Js.orEmpty (value r)))].
Proof.
move=> rk; rewrite textsOf_reducer rk.
exact: (upsert_hit Text.key _ (Text.mk k _)).
Qed.

Lemma texts_untouched (k : string) (rs : seq ProfileRecord) (o : RecordOptions) :
  all (fun r => textKey r != Some k) rs ->
  [seq t <- textsOf (foldl recordOptionsReducer o rs) | Text.key t == k]
  = [seq t <- textsOf o | Text.key t == k].
Proof.
elim: rs o => //= r rs IH o /andP[rk rs_k].
rewrite IH // textsOf_reducer.
case: (textKey r) rk => [k'|] // k'k.
exact: (upsert_miss (f:=Text.key) _ (x:=Text.mk k' _)).
Qed.

Lemma find_filter_nil (T : Type) (p : pred T) (s : seq T) :
  [seq x <- s | p x] = [::] -> Js.find p s = None.
Proof.
by elim: s => //= x s IH; case: (p x).
Qed.

Lemma newAvatar_fresh (ts : seq Text.t) (r : ProfileRecord) :
  [seq t <- ts | Text.key t == s_avatar] = [::] ->
  newAvatar ts r = Js.trim (Js.orEmpty (value r)).
Proof. by move=> fresh; rewrite /newAvatar /storedAvatar find_filter_nil. Qed.

(** C7, as stated, fails: in [avatar 'A'; ' avatar' 'B'] exactly one record
    has the key 'avatar', yet the avatar entry of the text bucket does not
    carry its value: the later text record, whose key is 'avatar' once
    trimmed, has replaced it. *)
Lemma avatar_entry_overwritten :
  ~ (count (fun r => key r == s_avatar) [:: avatar_A; text_pad_avatar_B] = 1 ->
     [seq t <- textsOf (profileRecordsToRecordOptions
                          [:: avatar_A; text_pad_avatar_B] false)
     | Text.key t == s_avatar]
     = [:: Text.mk s_avatar (Js.trim (Js.orEmpty (value avatar_A)))]).
Proof. by move=> H; move: (H erefl); vm_compute. Qed.

(** C7, amended: when exactly one record [r0] has the key 'avatar' and no
    record of type text has a key that is 'avatar' once trimmed, the text
    bucket holds exactly one entry with key 'avatar', and its value is the
    trimmed value of [r0], whatever the type and group of [r0]. *)
Theorem avatar_entry (rs1 rs2 : seq ProfileRecord) (r0 : ProfileRecord)
    (clear : bool) :
  key r0 = s_avatar ->
  all (fun r => key r != s_avatar) (rs1 ++ rs2) ->
  all (fun r => ~~ ((type r == s_text) && (Js.trim (key r) == s_avatar)))
      (rs1 ++ rs2) ->
  [seq t <- textsOf (profileRecordsToRecordOptions (rs1 ++ r0 :: rs2) clear)
  | Text.key t == s_avatar]
  = [:: Text.mk s_avatar (Js.trim (Js.orEmpty (value r0)))].
Proof.
move=> r0_avatar no_avatar no_padded.
have: all (fun r => textKey r != Some s_avatar) (rs1 ++ rs2).
  apply/allP=> r r_in; rewrite /textKey.
  have:= allP no_avatar r r_in; have:= allP no_padded r r_in.
  case: (key r == EmptyString) => //; case: (key r == s_avatar) => //=.
  by case: (type r == s_text) => //=; rewrite (inj_eq Some_inj).
rewrite all_cat => /andP[quiet1 quiet2].
rewrite options_cat /= texts_untouched //.
have r0_key : textKey r0 = Some s_avatar by rewrite /textKey r0_avatar.
rewrite (texts_written _ r0_key) r0_avatar eqxx newAvatar_fresh //.
by rewrite /profileRecordsToRecordOptions texts_untouched.
Qed.

Lemma avatar_entry_witness :
  [seq t <- textsOf (profileRecordsToRecordOptions
                       ([:: text_a1] ++ avatar_A :: [:: addr_eth1]) true)
  | Text.key t == s_avatar]
  = [:: Text.mk s_avatar (Js.trim (Js.orEmpty (value avatar_A)))].
Proof. by apply: avatar_entry. Defined.

(** C8, as stated, fails: in ['a' '1'; 'a' '2'; ' a' '3'] the last text
    record with key 'a' carries '2', yet the entry of the text bucket under
    'a' does not: the record with key ' a' is written under the same
    trimmed key. *)
Lemma text_upsert_padded_key :
  ~ (lastOf (fun r => isTextRecord r && (key r == "a"%string))
       [:: text_a1; text_a2; text_pad_a3] = Some text_a2 ->
     [seq t <- textsOf (profileRecordsToRecordOptions
                          [:: text_a1; text_a2; text_pad_a3] false)
     | Text.key t == "a"%string]
     = [:: Text.mk "a" (Js.orEmpty (value text_a2))]).
Proof. by move=> H; move: (H erefl); vm_compute. Qed.

(** C8, amended: the keys of the text bucket are the trimmed keys of the
    records written to it, each once, in the order of their last occurrence;
    and for a record of type text (key not empty and not 'avatar') after
    which no record is written under the same trimmed key, the bucket holds
    exactly one entry under that trimmed key, carrying the record's trimmed
    value. *)
Theorem text_upsert (rs : seq ProfileRecord) (clear : bool) :
  [seq Text.key t | t <- textsOf (profileRecordsToRecordOptions rs clear)]
  = undup (pmap textKey rs)
  /\ (forall rs1 r rs2,
        rs = rs1 ++ r :: rs2 -> isTextRecord r ->
        all (fun r' => textKey r' != Some (Js.trim (key r))) rs2 ->
        [seq t <- textsOf (profileRecordsToRecordOptions rs clear)
        | Text.key t == Js.trim (key r)]
        = [:: Text.mk (Js.trim (key r)) (Js.trim (Js.orEmpty (value r)))]).
Proof.
split; first exact: text_keys.
move=> rs1 r rs2 -> /and3P[key_r not_avatar text_r] quiet.
have r_key : textKey r = Some (Js.trim (key r)).
  by rewrite /textKey (negbTE key_r) (negbTE not_avatar) text_r.
by rewrite options_cat /= texts_untouched // (texts_written _ r_key)
           (negbTE not_avatar).
Qed.

Lemma text_upsert_witness :
  [seq t <- textsOf (profileRecordsToRecordOptions
                       [:: text_a1; text_a2; text_b1] false)
  | Text.key t == Js.trim (key text_a2)]
  = [:: Text.mk (Js.trim (key text_a2)) (Js.trim (Js.orEmpty (value text_a2)))].
Proof.
by apply: (proj2 (text_upsert [:: text_a1; text_a2; text_b1] false)
             [:: text_a1] text_a2 [:: text_b1]).
Defined.

(** ** The coin bucket *)

(** C4: the code breaks the claim on keys with surrounding blanks.  For two
    addr records with the key ' ETH', the filter compares the coin bucket with
    the trimmed key 'ETH' while the entry is stored under the untrimmed
    ' ETH': the first entry survives the second upsert, and the bucket holds
    two entries for one key.  The text branch, which stores what it filters
    on, keeps one entry with the last value for the same two records. *)
Theorem addr_padded_key_duplicated :
  coinsOf (profileRecordsToRecordOptions [:: addr_pad_eth1; addr_pad_eth2] false)
  = [:: Coin.mk " ETH" " 0x1 "; Coin.mk " ETH" "0x2"]
  /\ textsOf (profileRecordsToRecordOptions
                [:: retype (fun _ => s_text) addr_pad_eth1;
                    retype (fun _ => s_text) addr_pad_eth2] false)
     = [:: Text.mk "ETH" "0x2"].
Proof. by vm_compute. Qed.

Lemma coin_keys (rs : seq ProfileRecord) (clear : bool) :
  all (fun r => isAddrRecord r ==> (Js.trim (key r) == key r)) rs ->
  [seq Coin.coin c | c <- coinsOf (profileRecordsToRecordOptions rs clear)]
  = undup [seq key r | r <- rs & isAddrRecord r].
Proof.
elim/last_ind: rs => [|rs r IH] //.
rewrite all_rcons options_rcons coinsOf_reducer filter_rcons => /andP[r_ok rs_ok].
case: ifP r_ok => [_ /= /eqP-> | _ _]; last exact: IH.
by rewrite (upsert_keys Coin.coin _ (Coin.mk (key r) _)) IH // map_rcons
           undup_rcons.
Qed.

Lemma coins_untouched (k : string) (rs : seq ProfileRecord) (o : RecordOptions) :
  all (fun r => isAddrRecord r ==> (Js.trim (key r) == key r)) rs ->
  all (fun r => ~~ (isAddrRecord r && (key r == k))) rs ->
  [seq c <- coinsOf (foldl recordOptionsReducer o rs) | Coin.coin c == k]
  = [seq c <- coinsOf o | Coin.coin c == k].
Proof.
elim: rs o => //= r rs IH o /andP[r_ok rs_ok] /andP[rk rs_k].
rewrite IH // coinsOf_reducer.
case: ifP r_ok rk => //= _ /eqP-> rk.
exact: (upsert_miss (f:=Coin.coin) _ (x:=Coin.mk (key r) _)).
Qed.

(** X30: where the coin upsert works.  When every record that reaches the
    addr branch (type addr, key not empty and not 'avatar') has a key without
    surrounding blanks, the coin bucket holds one entry per key of these
    records, in the order of last occurrence, and for each such record after
    which no other one has the same key, the entry under its key carries its
    value. *)
Theorem coin_upsert (rs : seq ProfileRecord) (clear : bool) :
  all (fun r => isAddrRecord r ==> (Js.trim (key r) == key r)) rs ->
  [/\ uniq [seq Coin.coin c
           | c <- coinsOf (profileRecordsToRecordOptions rs clear)],
      [seq Coin.coin c | c <- coinsOf (profileRecordsToRecordOptions rs clear)]
      = undup [seq key r | r <- rs & isAddrRecord r]
    & forall rs1 r rs2,
        rs = rs1 ++ r :: rs2 -> isAddrRecord r ->
        all (fun r' => ~~ (isAddrRecord r' && (key r' == key r))) rs2 ->
        [seq c <- coinsOf (profileRecordsToRecordOptions rs clear)
        | Coin.coin c == key r]
        = [:: Coin.mk (key r) (Js.orEmpty (value r))]].
Proof.
move=> trimmed; split; rewrite ?coin_keys ?undup_uniq //.
move=> rs1 r rs2 rs_eq addr_r quiet; move: trimmed.
rewrite {}rs_eq all_cat /= addr_r /= => /and3P[_ /eqP r_trim trimmed2].
rewrite options_cat /= coins_untouched // coinsOf_reducer addr_r r_trim.
exact: (upsert_hit Coin.coin _ (Coin.mk (key r) _)).
Qed.

Lemma coin_upsert_witness :
  [seq c <- coinsOf (profileRecordsToRecordOptions
                       [:: addr_eth1; addr_eth2; addr_btc] false)
  | Coin.coin c == key addr_eth2]
  = [:: Coin.mk (key addr_eth2) (Js.orEmpty (value addr_eth2))].
Proof.
have [//|_ _ H] := @coin_upsert [:: addr_eth1; addr_eth2; addr_btc] false.
by apply: (H [:: addr_eth1] addr_eth2 [:: addr_btc]).
Defined.

(** ** Skipped records *)

Lemma reducer_skips (o : RecordOptions) (r : ProfileRecord) :
  isSkipped r -> recordOptionsReducer o r = o.
Proof.
rewrite /isSkipped /recordOptionsReducer /Js.truthy.
case: (key r == EmptyString) => //=.
case: (key r == s_avatar) => //=.
by rewrite !inE !negb_or => /and4P[/negbTE-> /negbTE-> /negbTE-> /negbTE->].
Qed.

(** C9: the reducer is a total function of the accumulator and the record;
    it returns the accumulator unchanged for a record with an empty key, and
    for a record whose key is not 'avatar' and whose type is none of text,
    addr, contenthash and abi; a list of such records folds to the initial
    payload. *)
Theorem options_skip (o : RecordOptions) (r : ProfileRecord) :
  [/\ key r = EmptyString -> recordOptionsReducer o r = o,
      key r <> s_avatar ->
      type r \notin [:: s_text; s_addr; s_contenthash; s_abi] ->
      recordOptionsReducer o r = o
    & forall rs clear,
        all isSkipped rs ->
        profileRecordsToRecordOptions rs clear
        = mkOptions clear None None None None].
Proof.
split.
- by move=> key_r; apply: reducer_skips; rewrite /isSkipped key_r.
- move=> /eqP not_avatar other_type; apply: reducer_skips.
  by rewrite /isSkipped not_avatar other_type orbT.
- move=> rs clear; rewrite /profileRecordsToRecordOptions.
  elim: rs (mkOptions _ _ _ _ _) => //= r' rs IH o' /andP[skip_r skip_rs].
  by rewrite reducer_skips ?IH.
Qed.

Lemma options_skip_witness :
  [/\ recordOptionsReducer (profileRecordsToRecordOptions [:: text_a1] false)
        empty_key
      = profileRecordsToRecordOptions [:: text_a1] false,
      recordOptionsReducer (profileRecordsToRecordOptions [:: text_a1] false)
        unknown_type
      = profileRecordsToRecordOptions [:: text_a1] false
    & profileRecordsToRecordOptions [:: empty_key; unknown_type] true
      = mkOptions true None None None None].
Proof.
split.
- by have [H _ _] :=
    options_skip (profileRecordsToRecordOptions [:: text_a1] false) empty_key;
  apply: H.
- by have [_ H _] :=
    options_skip (profileRecordsToRecordOptions [:: text_a1] false) unknown_type;
  apply: H.
- by have [_ _ H] :=
    options_skip (profileRecordsToRecordOptions [:: text_a1] false) unknown_type;
  apply: H.
Defined.

(** ** Which buckets are trimmed *)

Lemma find_mem (T : eqType) (p : pred T) (s : seq T) (x : T) :
  Js.find p s = Some x -> x \in s.
Proof.
elim: s => //= y s IH; case: ifP => _; first by case=> ->; rewrite mem_head.
by move/IH; rewrite inE orbC => ->.
Qed.



Lemma all_upsert (T : Type) (a p : pred T) (s : seq T) (x : T) :
  all a s -> a x -> all a ([seq t <- s | p t] ++ [:: x]).
Proof.
move=> a_s a_x; rewrite all_cat /= a_x andbT.
elim: s a_s => //= t s IH /andP[a_t a_s].
by case: (p t); rewrite /= ?a_t IH.
Qed.


Lemma contentHash_reducer (o : RecordOptions) (r : ProfileRecord) :
  contentHash (recordOptionsReducer o r)
  = if isContenthashRecord r then Some (Js.trim (Js.orEmpty (value r)))
    else contentHash o.
Proof.
rewrite /recordOptionsReducer /isContenthashRecord /Js.truthy.
case: (key r == EmptyString) => //=.
case: (key r == s_avatar) => //=.
case: eqP => [-> //|_]; case: eqP => [-> //|_].
by case: eqP => // _; case: eqP.
Qed.

Lemma abi_reducer (o : RecordOptions) (r : ProfileRecord) :
  abi (recordOptionsReducer o r)
  = if isAbiRecord r
    then Some (mkAbi 1 (Hex.stringToHex (Js.trim (Js.orEmpty (value r)))))
    else abi o.
Proof.
rewrite /recordOptionsReducer /isAbiRecord /Js.truthy.
case: (key r == EmptyString) => //=.
case: (key r == s_avatar) => //=.
case: eqP => [-> //|_]; case: eqP => [-> //|_].
by case: eqP => [-> //|_]; case: eqP.
Qed.

Lemma lastOf_rcons (p : pred ProfileRecord) (rs : seq ProfileRecord)
    (r : ProfileRecord) :
  lastOf p (rcons rs r) = if p r then Some r else lastOf p rs.
Proof. by rewrite /lastOf rev_rcons. Qed.




(** ** The form normaliser *)

Lemma formReducer_plain (rs acc : seq ProfileRecord) (a : string) :
  all (fun r => ~~ isAvatarMedia r) rs -> all (fun r => value r != None) rs ->
  foldl formReducer (mkForm a acc) rs = mkForm a (acc ++ rs).
Proof.
elim: rs acc => [|r rs IH] acc /=; first by rewrite cats0.
move=> /andP[plain_r plain] /andP[defined_r defined].
rewrite /formReducer -/(isAvatarMedia r) (negbTE plain_r) /= IH // -catA /=.
by case: r defined_r {plain_r} => k t g [v|].
Qed.

Lemma form_of_plain_records (rs : seq ProfileRecord) :
  all (fun r => ~~ isAvatarMedia r) rs -> all (fun r => value r != None) rs ->
  profileRecordsToProfileEditorForm rs = mkForm EmptyString rs.
Proof. by move=> plain defined; rewrite /profileRecordsToProfileEditorForm formReducer_plain. Qed.

Lemma form_round_trip_eq (R : seq ProfileRecord) :
  all (fun r => ~~ isAvatarMedia r) R -> all (fun r => value r != None) R ->
  profileEditorFormToProfileRecords (profileRecordsToProfileEditorForm R) = R.
Proof.
move=> plain defined; rewrite form_of_plain_records //.
by rewrite /profileEditorFormToProfileRecords /= cats0.
Qed.

(** C5: for a record list R without duplicate (key, group) pairs, without an
    avatar/media record and with every value defined, the list obtained by
    profileRecordsToProfileEditorForm and then
    profileEditorFormToProfileRecords is R up to ordering. *)
Theorem form_round_trip (R : seq ProfileRecord) :
  uniq [seq (key r, group r) | r <- R] ->
  all (fun r => ~~ isAvatarMedia r) R ->
  all (fun r => value r != None) R ->
  perm_eq (profileEditorFormToProfileRecords (profileRecordsToProfileEditorForm R))
          R.
Proof. by move=> _ plain defined; rewrite form_round_trip_eq. Qed.

Lemma form_round_trip_witness :
  perm_eq (profileEditorFormToProfileRecords
             (profileRecordsToProfileEditorForm [:: text_a1; text_b1; addr_eth1]))
          [:: text_a1; text_b1; addr_eth1].
Proof. by apply: form_round_trip. Defined.

(** ** The sort *)

Lemma engineSort_perm (T : eqType) (engine : SortEngine)
    (compareFn : T -> T -> JsNumber) (s : seq T) :
  perm_eq (engineSort engine compareFn s) s.
Proof.
case: s => // x s; rewrite /engineSort; case: ifP => // order_ok.
by rewrite -[X in perm_eq _ X](mkseq_nth x (x :: s)); apply: perm_map.
Qed.

Lemma Array_sort_perm (T : eqType) (engine : SortEngine)
    (compareFn : T -> T -> JsNumber) (s : seq T) :
  perm_eq (Array_sort engine compareFn s) s.
Proof.
rewrite /Array_sort; case: ifP => _; first by rewrite perm_sort.
exact: engineSort_perm.
Qed.

(** ** The classifier *)

Section ClassifierFacts.

Variables ContentHash Abi : Type.
Variable sortValues : ProfileRecordGroup -> option (string -> option Z).
Variable toLowerCase : string -> string.
Variables supportedGeneralRecordKeys supportedAccounts : seq string.
Variable contentHashToString : option ContentHash -> string.
Variable getProtocolType : string -> option string.
Variable getInternalCodec : string -> option string.
Variable JSON_stringify : Abi -> string.
Variable engine : SortEngine.

Local Notation rank := (recordSortValue sortValues toLowerCase).
Local Notation compareFn := (sortProfileRecords sortValues toLowerCase).
Local Notation leRank := (fun a b => leZero (compareFn a b)).
Local Notation numeric := (fun r => isNumeric (rank r)).
Local Notation classify :=
  (profileToProfileRecords sortValues toLowerCase supportedGeneralRecordKeys
     supportedAccounts contentHashToString getProtocolType getInternalCodec
     JSON_stringify engine).
Local Notation unsorted profile :=
  (profileTexts supportedGeneralRecordKeys supportedAccounts profile
     ++ profileAddresses profile
     ++ profileWebsite contentHashToString getProtocolType getInternalCodec
          profile
     ++ profileAbi JSON_stringify profile).

Lemma compare_numeric (a b : ProfileRecord) :
  numeric a -> numeric b ->
  compareFn a b = Finite (sortNumber (rank a) - sortNumber (rank b)).
Proof.
rewrite /sortProfileRecords.
by case: (rank a) => [x|] //; case: (rank b) => [y|].
Qed.

Lemma leRank_total : {in numeric &, total leRank}.
Proof.
move=> a b num_a num_b.
rewrite (compare_numeric num_a num_b) (compare_numeric num_b num_a) /=.
apply/orP; case: (Z.leb_spec (sortNumber (rank a) - sortNumber (rank b)) 0) => H.
  by left.
by right; apply/Z.leb_le; lia.
Qed.

Lemma leRank_trans : {in numeric & &, transitive leRank}.
Proof.
move=> b a c num_b num_a num_c.
rewrite (compare_numeric num_a num_b) (compare_numeric num_b num_c).
rewrite (compare_numeric num_a num_c) /=.
by move=> /Z.leb_le ab /Z.leb_le bc; apply/Z.leb_le; lia.
Qed.

Lemma numeric_consistent (s : seq ProfileRecord) :
  all numeric s -> consistentOn compareFn s.
Proof.
move=> /allP num_s; apply/allP=> a /num_s num_a; apply/allP=> b /num_s num_b.
apply/andP; split.
  rewrite (compare_numeric num_a num_b) (compare_numeric num_b num_a) /=.
  by apply/Z.eqb_eq; rewrite -Z.sgn_opp; congr Z.sgn; lia.
apply/allP=> c /num_s num_c; apply/implyP=> /andP[ab bc].
exact: (leRank_trans num_b num_a num_c ab bc).
Qed.

Lemma same_rank_sorted (v : Z) (s : seq ProfileRecord) :
  sorted leRank [seq r <- s | isRank v (rank r)].
Proof.
have tie a b : isRank v (rank a) -> isRank v (rank b) -> leRank a b.
  rewrite /sortProfileRecords.
  case: (rank a) => [x|] //; case: (rank b) => [y|] //=.
  by move=> /Z.eqb_eq-> /Z.eqb_eq->; apply/Z.leb_le; lia.
elim: s => //= x s; case: ifP => // x_v.
case: [seq r <- s | isRank v (rank r)] (filter_all (fun r => isRank v (rank r)) s)
  => //= y l /andP[y_v _] ->.
by rewrite tie.
Qed.

(** A record whose lowercased key names an inherited member of its group's
    table, and no entry of the table itself, compares as [NaN] with every
    record. *)
Lemma inherited_not_compared (a b : ProfileRecord) (own : string -> option Z) :
  sortValues (group a) = Some own -> own (toLowerCase (key a)) = None ->
  toLowerCase (key a) \in objectPrototypeKeys ->
  compareFn a b = NaN /\ compareFn b a = NaN.
Proof.
move=> table_a not_own inherited.
have rank_a : rank a = NotNumber.
  by rewrite /recordSortValue /tableValue table_a /objectLookup not_own inherited.
by rewrite /sortProfileRecords rank_a; case: (rank b).
Qed.

(** X29: the classifier always returns a permutation of the text, address,
    website and abi records; when none of them reads an inherited member
    from the priority table, the result is in the order of the comparator
    (no record is followed by one it should come after) and records of equal
    sort value keep the order they had before the sort. *)
Theorem classify_sorted_when_numeric
    (profile : option (Profile ContentHash Abi)) :
  perm_eq (classify profile) (unsorted profile)
  /\ (all (fun r => isNumeric (rank r)) (unsorted profile) ->
      sorted (fun a b => leZero (compareFn a b)) (classify profile)
      /\ forall v, [seq r <- classify profile | isRank v (rank r)]
                   = [seq r <- unsorted profile | isRank v (rank r)]).
Proof.
split; first exact: Array_sort_perm.
move=> num_s; rewrite /profileToProfileRecords /Array_sort numeric_consistent //.
split; first exact: (sort_sorted_in leRank_total).
move=> v; rewrite (filter_sort_in leRank_total leRank_trans) //.
apply: (sorted_sort_in leRank_trans); last exact: same_rank_sorted.
by apply/allP=> r; rewrite mem_filter => /andP[_]; apply: (allP num_s).
Qed.

End ClassifierFacts.

Lemma classify_sorted_when_numeric_witness :
  sorted (fun a b => leZero (sortProfileRecords sampleSortValues lowerString a b))
    (profileToProfileRecords sampleSortValues lowerString
       [:: "name"; "url"]%string [:: "com.twitter"%string]
       (fun _ : option unit => EmptyString) (fun _ => None) (fun _ => None)
       (fun _ : unit => EmptyString) keepOrder (Some sampleProfile)).
Proof.
have [_ H] := @classify_sorted_when_numeric unit unit sampleSortValues
  lowerString [:: "name"; "url"]%string [:: "com.twitter"%string]
  (fun _ : option unit => EmptyString) (fun _ => None) (fun _ => None)
  (fun _ : unit => EmptyString) keepOrder (Some sampleProfile).
by have [] := H isT.
Defined.

(** C6: the code does not sort by the order the claim describes when a key,
    lowercased, names a member of Object.prototype.  For the coins BTC,
    constructor, ETH and a table whose address entry holds eth: 301, the
    comparator is NaN on every pair with the coin 'constructor', while ETH
    compares below BTC; the comparator is not consistent, the order is the
    engine's, and an engine that leaves the list in place returns BTC,
    constructor, ETH, with ETH (301) after BTC (399). *)
Theorem inherited_key_unsorted :
  [/\ sortProfileRecords sampleSortValues lowerString addr_constructor addr_eth1
      = NaN
      /\ sortProfileRecords sampleSortValues lowerString addr_btc addr_constructor
         = NaN,
      sortProfileRecords sampleSortValues lowerString addr_eth1 addr_btc
      = Finite (-98),
      forall engine : SortEngine,
        profileToProfileRecords sampleSortValues lowerString
          [:: "name"; "url"]%string [:: "com.twitter"%string]
          (fun _ : option unit => EmptyString) (fun _ => None) (fun _ => None)
          (fun _ : unit => EmptyString) engine (Some inheritedProfile)
        = engineSort engine (sortProfileRecords sampleSortValues lowerString)
            [:: addr_btc; addr_constructor; addr_eth1]
    & profileToProfileRecords sampleSortValues lowerString
        [:: "name"; "url"]%string [:: "com.twitter"%string]
        (fun _ : option unit => EmptyString) (fun _ => None) (fun _ => None)
        (fun _ : unit => EmptyString) keepOrder (Some inheritedProfile)
      = [:: addr_btc; addr_constructor; addr_eth1]].
Proof. by split. Qed.

(** * Further properties *)

(** ** The diff engine at its edges *)

(** X1: without previous records the diff is the current records of
    non-empty value, in their order, and nothing is deleted. *)
Theorem diff_no_previous (current : seq ProfileRecord) :
  getProfileRecordsDiff current [::]
  = [seq c <- current | Js.otruthy (value c)].
Proof.
rewrite /getProfileRecordsDiff updatedAndNewRecords_filter /deletedRecords /=.
by rewrite cats0; apply: eq_filter => c; rewrite /specChanged /= andbT.
Qed.

(** X2: without current records every previous record, website records
    included, comes back as a tombstone, in the previous order. *)
Theorem diff_no_current (previous : seq ProfileRecord) :
  getProfileRecordsDiff [::] previous = [seq tombstone p | p <- previous].
Proof.
rewrite /getProfileRecordsDiff deletedRecords_spec /updatedAndNewRecords /=.
congr map; rewrite -[RHS]filter_predT; apply: eq_filter => p.
by rewrite /specDeleted /=; case: ifP.
Qed.

Lemma find_self (rs : seq ProfileRecord) (c : ProfileRecord) :
  uniq [seq keyGroup r | r <- rs] -> c \in rs ->
  Js.find (fun p => (key p == key c) && (group p == group c)) rs = Some c.
Proof.
elim: rs => //= x rs IH /andP[x_fresh uniq_rs].
rewrite inE => /orP[/eqP->|c_in]; first by rewrite !eqxx.
case: ifP => [/andP[/eqP key_x /eqP group_x]|_]; last exact: IH.
case/negP: x_fresh; apply/mapP; exists c => //.
by rewrite /keyGroup key_x group_x.
Qed.

(** X3: when the previous list has no duplicate (key, group) pairs and the
    current list holds the same records, in any order, the diff is empty;
    in particular the diff of such a list with itself. *)
Theorem diff_unchanged (current previous : seq ProfileRecord) :
  uniq [seq keyGroup r | r <- previous] -> current =i previous ->
  getProfileRecordsDiff current previous = [::].
Proof.
move=> uniq_prev same_records.
rewrite /getProfileRecordsDiff updatedAndNewRecords_filter deletedRecords_spec.
have -> : [seq c <- current | specChanged previous c] = [::].
  rewrite (@eq_in_filter _ _ pred0) ?filter_pred0 // => c.
  rewrite same_records => c_in.
  rewrite /specChanged find_self //= eqxx orbF.
  have -> : has (fun p => (key p == key c) && (group p == group c)) previous.
    by apply/hasP; exists c => //; rewrite !eqxx.
  by rewrite andbF.
rewrite (@eq_in_filter _ _ pred0) ?filter_pred0 // => p.
rewrite -same_records => p_in.
rewrite /specDeleted; case: ifP => [website_p|_]; apply/negbTE; rewrite negbK.
  by apply/hasP; exists p.
by apply/hasP; exists p => //; rewrite !eqxx.
Qed.

Lemma diff_unchanged_witness :
  getProfileRecordsDiff [:: addr_eth1; text_a1; text_b1]
    [:: text_a1; text_b1; addr_eth1] = [::].
Proof.
apply: diff_unchanged => // x.
by rewrite !inE; do ![case: (x == _) => //=].
Defined.

(** X4: no tombstone of the diff shares its (key, group) with a current
    record: a record is never kept and deleted at once. *)
Theorem deletions_not_current (current previous : seq ProfileRecord) :
  all (fun d => ~~ has (sameKeyGroup d) current)
      (deletedRecords current previous).
Proof.
rewrite deletedRecords_spec all_map; apply/allP=> p.
rewrite mem_filter /specDeleted => /andP[deleted _] /=.
case: ifP deleted => [/eqP website_p|_] //.
apply: contra => /hasP[c c_in /andP[_ /eqP group_c]].
by apply/hasP; exists c; rewrite // group_c website_p.
Qed.

(** X5: as soon as one current record is a website record, the diff holds
    no tombstone of group website, whatever the keys of the previous website
    records. *)
Theorem website_never_deleted (current previous : seq ProfileRecord) :
  has (fun c => group c == website) current ->
  all (fun d => group d != website) (deletedRecords current previous).
Proof.
move=> has_website; rewrite deletedRecords_spec all_map; apply/allP=> p.
rewrite mem_filter /specDeleted /= => /andP[].
by case: ifP => //; rewrite has_website.
Qed.

Lemma website_never_deleted_witness :
  all (fun d => group d != website)
      (deletedRecords [:: ipns_h2; text_a1] [:: ipfs_h1; text_b1]).
Proof. by apply: website_never_deleted. Defined.

(** X6: in the diff the records of non-empty value are exactly the changed
    and new records, and the records of empty value exactly the tombstones:
    the value tells the two parts apart. *)
Theorem diff_split_by_value (current previous : seq ProfileRecord) :
  [seq r <- getProfileRecordsDiff current previous | Js.otruthy (value r)]
  = updatedAndNewRecords current previous
  /\ [seq r <- getProfileRecordsDiff current previous
     | ~~ Js.otruthy (value r)]
     = deletedRecords current previous.
Proof.
have changes_full :
    all (fun r => Js.otruthy (value r)) (updatedAndNewRecords current previous).
  rewrite updatedAndNewRecords_filter; apply/allP=> c.
  by rewrite mem_filter /specChanged => /andP[/andP[]].
have deletions_empty :
    all (fun r => ~~ Js.otruthy (value r)) (deletedRecords current previous).
  by rewrite deletedRecords_spec all_map; apply/allP.
rewrite /getProfileRecordsDiff !filter_cat; split.
- rewrite (all_filterP changes_full) -[RHS]cats0; congr cat.
  by apply/eqP; rewrite -[_ == _]negbK -has_filter -all_predC.
- rewrite (all_filterP deletions_empty) -[RHS]cat0s; congr cat.
  apply/eqP; rewrite -[_ == _]negbK -has_filter -all_predC.
  by apply: sub_all changes_full => r /=; rewrite negbK.
Qed.

(** ** The form normaliser, in closed form *)

Lemma form_closed (rs : seq ProfileRecord) :
  profileRecordsToProfileEditorForm rs
  = mkForm (lastAvatar rs)
      [seq normalizedRecord r | r <- rs & ~~ isAvatarMedia r].
Proof.
rewrite /profileRecordsToProfileEditorForm /lastAvatar.
elim/last_ind: rs => [|rs r IH] //.
rewrite -cats1 foldl_cat /= IH cats1 lastOf_rcons filter_rcons /formReducer.
rewrite -/(isAvatarMedia r); case: ifP => //= _.
by rewrite map_rcons cats1.
Qed.

Lemma lastOf_none (p : pred ProfileRecord) (rs : seq ProfileRecord) :
  all (predC p) rs -> lastOf p rs = None.
Proof.
elim/last_ind: rs => [|rs r IH] //.
by rewrite all_rcons lastOf_rcons /= => /andP[/negbTE-> /IH].
Qed.

Lemma lastOf_cat_quiet (p : pred ProfileRecord) (rs1 rs2 : seq ProfileRecord) :
  all (predC p) rs2 -> lastOf p (rs1 ++ rs2) = lastOf p rs1.
Proof.
elim/last_ind: rs2 => [|rs2 r IH]; first by rewrite cats0.
rewrite all_rcons -rcons_cat lastOf_rcons /= => /andP[/negbTE-> quiet].
exact: IH.
Qed.

Lemma normalized_defined (rs : seq ProfileRecord) :
  all (fun r => value r != None) rs -> [seq normalizedRecord r | r <- rs] = rs.
Proof.
elim: rs => //= r rs IH /andP[defined_r /IH->]; congr cons.
by case: r defined_r => k t g [v|].
Qed.

Lemma form_of_form_records (f : ProfileEditorForm) :
  all (fun r => ~~ isAvatarMedia r) (records f) ->
  all (fun r => value r != None) (records f) ->
  profileRecordsToProfileEditorForm (profileEditorFormToProfileRecords f) = f.
Proof.
move=> plain defined; rewrite form_closed /profileEditorFormToProfileRecords.
rewrite filter_cat map_cat (all_filterP plain) normalized_defined // /lastAvatar.
case: f plain defined => a rs /= plain defined.
case: ifP => [_ | /negbFE/eqP->] /=.
  by rewrite cats1 lastOf_rcons /= cats0.
by rewrite !cats0 lastOf_none.
Qed.

Lemma form_records_plain (rs : seq ProfileRecord) :
  all (fun r => ~~ isAvatarMedia r)
      (records (profileRecordsToProfileEditorForm rs))
  /\ all (fun r => value r != None)
         (records (profileRecordsToProfileEditorForm rs)).
Proof.
rewrite form_closed /= !all_map; split; last exact/allP.
by apply/allP=> r; rewrite mem_filter => /andP[].
Qed.

(** X7: the avatar field of the form is the value of the last avatar/media
    record of the list ([''] when that value is missing), whatever stands
    before it, and [''] when the list has no such record. *)
Theorem form_avatar_last_wins (rs1 rs2 : seq ProfileRecord) (a : ProfileRecord) :
  all (fun r => ~~ isAvatarMedia r) rs2 ->
  (isAvatarMedia a ->
   avatar (profileRecordsToProfileEditorForm (rs1 ++ a :: rs2))
   = Js.orEmpty (value a))
  /\ avatar (profileRecordsToProfileEditorForm rs2) = EmptyString.
Proof.
move=> quiet; rewrite !form_closed /= /lastAvatar (lastOf_none quiet); split=> //.
move=> avatar_a.
by rewrite -cat_rcons lastOf_cat_quiet // lastOf_rcons avatar_a.
Qed.

Lemma form_avatar_last_wins_witness :
  avatar (profileRecordsToProfileEditorForm
            ([:: avatar_A; text_a1] ++ avatarRecord "Z" :: [:: text_b1]))
  = "Z"%string.
Proof.
have [//|H _] :=
  @form_avatar_last_wins [:: avatar_A; text_a1] [:: text_b1] (avatarRecord "Z").
exact: H.
Defined.

(** X8: the records of the form are the records of the list that are not
    avatar/media records, in their order, each with a defined value; so the
    form never lists an avatar/media record. *)
Theorem form_records_closed (rs : seq ProfileRecord) :
  [/\ records (profileRecordsToProfileEditorForm rs)
      = [seq normalizedRecord r | r <- rs & ~~ isAvatarMedia r],
      all (fun r => ~~ isAvatarMedia r)
          (records (profileRecordsToProfileEditorForm rs))
    & all (fun r => value r != None)
          (records (profileRecordsToProfileEditorForm rs))].
Proof.
by have [plain defined] := form_records_plain rs; split=> //; rewrite form_closed.
Qed.

(** X9: a form whose records hold no avatar/media record and only defined
    values is restored by profileEditorFormToProfileRecords followed by
    profileRecordsToProfileEditorForm, avatar field included. *)
Theorem form_records_form (f : ProfileEditorForm) :
  all (fun r => ~~ isAvatarMedia r) (records f) ->
  all (fun r => value r != None) (records f) ->
  profileRecordsToProfileEditorForm (profileEditorFormToProfileRecords f) = f.
Proof. exact: form_of_form_records. Qed.

Lemma form_records_form_witness :
  profileRecordsToProfileEditorForm
    (profileEditorFormToProfileRecords (mkForm "pic" [:: text_a1; addr_eth1]))
  = mkForm "pic" [:: text_a1; addr_eth1].
Proof. by apply: form_records_form. Defined.

(** X10: a list with exactly one avatar/media record, of type text and with
    a non-empty value, and only defined values elsewhere, comes back from the
    form as a permutation of itself: the avatar record has moved to the
    end. *)
Theorem form_round_trip_avatar (rs1 rs2 : seq ProfileRecord) (v : string) :
  all (fun r => ~~ isAvatarMedia r) (rs1 ++ rs2) ->
  all (fun r => value r != None) (rs1 ++ rs2) ->
  Js.truthy v ->
  throughForm (rs1 ++ avatarRecord v :: rs2)
  = rs1 ++ rs2 ++ [:: avatarRecord v]
  /\ perm_eq (throughForm (rs1 ++ avatarRecord v :: rs2))
             (rs1 ++ avatarRecord v :: rs2).
Proof.
move=> plain defined truthy_v.
have -> : throughForm (rs1 ++ avatarRecord v :: rs2)
          = rs1 ++ rs2 ++ [:: avatarRecord v].
  have quiet : all (predC isAvatarMedia) rs2.
    by move: plain; rewrite all_cat => /andP[_].
  rewrite /throughForm form_closed /profileEditorFormToProfileRecords /=.
  rewrite filter_cat /= -filter_cat (all_filterP plain) normalized_defined //.
  rewrite /lastAvatar -cat_rcons (lastOf_cat_quiet _ quiet).
  by rewrite lastOf_rcons /= truthy_v catA.
split=> //.
by rewrite perm_cat2l -cat1s perm_catC.
Qed.

Lemma form_round_trip_avatar_witness :
  perm_eq (throughForm ([:: text_a1] ++ avatarRecord "pic" :: [:: addr_eth1]))
          ([:: text_a1] ++ avatarRecord "pic" :: [:: addr_eth1]).
Proof.
by have [] := @form_round_trip_avatar [:: text_a1] [:: addr_eth1] "pic".
Defined.

(** X11: going through the form is idempotent: a list that has been through
    the form once is left unchanged by a second passage. *)
Theorem throughForm_idempotent (rs : seq ProfileRecord) :
  throughForm (throughForm rs) = throughForm rs.
Proof.
have [plain defined] := form_records_plain rs.
by rewrite /throughForm form_of_form_records.
Qed.

(** ** The options builder: buckets *)

Lemma clearRecords_reducer (o : RecordOptions) (r : ProfileRecord) :
  clearRecords (recordOptionsReducer o r) = clearRecords o.
Proof. by rewrite /recordOptionsReducer; do ![case: ifP => // _]. Qed.

Lemma texts_reducer (o : RecordOptions) (r : ProfileRecord) :
  texts (recordOptionsReducer o r)
  = if writesText r then Some (textsOf (recordOptionsReducer o r))
    else texts o.
Proof.
rewrite /recordOptionsReducer /writesText /textKey /Js.truthy.
case: (key r == EmptyString) => //=.
case: (key r == s_avatar) => //=.
case: (type r == s_text) => //=.
by do ![case: ifP => // _].
Qed.

Lemma coins_reducer (o : RecordOptions) (r : ProfileRecord) :
  coins (recordOptionsReducer o r)
  = if isAddrRecord r then Some (coinsOf (recordOptionsReducer o r))
    else coins o.
Proof.
rewrite /recordOptionsReducer /isAddrRecord /Js.truthy.
case: (key r == EmptyString) => //=.
case: (key r == s_avatar) => //=.
case: eqP => [-> //|_]; case: ifP => //= _.
by do ![case: ifP => // _].
Qed.

(** X12: the clearRecords flag of the payload is the flag given to
    profileRecordsToRecordOptions, whatever the records. *)
Theorem options_clearRecords (rs : seq ProfileRecord) (clear : bool) :
  clearRecords (profileRecordsToRecordOptions rs clear) = clear.
Proof.
elim/last_ind: rs => [|rs r IH] //.
by rewrite options_rcons clearRecords_reducer.
Qed.

(** X13: a bucket of the payload is defined exactly when some record of the
    list reaches its branch, and a defined text or coin bucket is never the
    empty list. *)
Theorem options_buckets_defined (rs : seq ProfileRecord) (clear : bool) :
  [/\ isSome (texts (profileRecordsToRecordOptions rs clear))
      = has writesText rs,
      isSome (coins (profileRecordsToRecordOptions rs clear))
      = has isAddrRecord rs,
      isSome (contentHash (profileRecordsToRecordOptions rs clear))
      = has isContenthashRecord rs,
      isSome (abi (profileRecordsToRecordOptions rs clear))
      = has isAbiRecord rs
    & (textsOf (profileRecordsToRecordOptions rs clear) == [::])
      = ~~ has writesText rs
      /\ (coinsOf (profileRecordsToRecordOptions rs clear) == [::])
         = ~~ has isAddrRecord rs].
Proof.
elim/last_ind: rs => [|rs r [IHt IHc IHh IHa [IHts IHcs]]] //.
rewrite !has_rcons !options_rcons; split; last split.
- by rewrite texts_reducer; case: ifP.
- by rewrite coins_reducer; case: ifP.
- by rewrite contentHash_reducer; case: ifP.
- by rewrite abi_reducer; case: ifP.
- rewrite textsOf_reducer /writesText; case: (textKey r) => [k|] //=.
  by rewrite -size_eq0 size_cat /= addn1.
- rewrite coinsOf_reducer; case: ifP => //= _.
  by rewrite -size_eq0 size_cat /= addn1.
Qed.

(** X14: the buckets are filled independently: the text bucket is the one
    built from the records written to it alone, the coin bucket the one built
    from the addr records alone, whatever the other records and the flag. *)
Theorem options_buckets_independent (rs : seq ProfileRecord)
    (clear clear' : bool) :
  textsOf (profileRecordsToRecordOptions rs clear)
  = textsOf (profileRecordsToRecordOptions [seq r <- rs | writesText r] clear')
  /\ coinsOf (profileRecordsToRecordOptions rs clear)
     = coinsOf (profileRecordsToRecordOptions [seq r <- rs | isAddrRecord r]
                  clear').
Proof.
split.
- elim/last_ind: rs => [|rs r IH] //.
  rewrite filter_rcons options_rcons textsOf_reducer /writesText.
  case written: (textKey r) => [k|] //=.
  by rewrite options_rcons textsOf_reducer written IH.
- elim/last_ind: rs => [|rs r IH] //.
  rewrite filter_rcons options_rcons coinsOf_reducer.
  case: ifP => // addr_r.
  by rewrite options_rcons coinsOf_reducer addr_r IH.
Qed.

(** X15: records that the reducer passes over can be dropped from the list
    without changing the payload. *)
Theorem options_skip_filter (rs : seq ProfileRecord) (clear : bool) :
  profileRecordsToRecordOptions rs clear
  = profileRecordsToRecordOptions [seq r <- rs | ~~ isSkipped r] clear.
Proof.
elim/last_ind: rs => [|rs r IH] //.
rewrite filter_rcons options_rcons; case skip_r: (isSkipped r) => /=.
  by rewrite reducer_skips.
by rewrite options_rcons IH.
Qed.

(** ** The options builder: the avatar rule *)

Lemma newAvatar_closed (ts : seq Text.t) (r : ProfileRecord) :
  newAvatar ts r
  = let v := Js.trim (Js.orEmpty (value r)) in
    if (group r == media) && Js.truthy v then v
    else if Js.truthy (storedAvatar ts) then storedAvatar ts else v.
Proof.
rewrite /newAvatar /Js.or /=.
case stored: (Js.truthy (storedAvatar ts)) => /=.
  rewrite andbC; case: (group r == media) => /=; last by rewrite !stored.
  by case truthy_v: (Js.truthy (Js.trim _));
    do ?[rewrite truthy_v | rewrite stored].
by rewrite !stored; case: ifP.
Qed.

Lemma avatar_written (rs : seq ProfileRecord) (r : ProfileRecord) (clear : bool) :
  key r = s_avatar ->
  avatarEntries (textsOf (profileRecordsToRecordOptions (rcons rs r) clear))
  = [:: Text.mk s_avatar
          (newAvatar (textsOf (profileRecordsToRecordOptions rs clear)) r)].
Proof.
move=> key_r; rewrite options_rcons /avatarEntries.
have written : textKey r = Some s_avatar by rewrite /textKey key_r.
by rewrite (texts_written _ written) key_r eqxx.
Qed.

(** X16: an avatar record leaves exactly one avatar entry in the text
    bucket; its value is the record's trimmed value when the record's group
    is media and that value is not empty, otherwise the avatar accumulated so
    far when there is one, otherwise the record's trimmed value. *)
Theorem avatar_rule (rs : seq ProfileRecord) (r : ProfileRecord) (clear : bool) :
  key r = s_avatar ->
  avatarEntries (textsOf (profileRecordsToRecordOptions (rcons rs r) clear))
  = [:: Text.mk s_avatar
          (let v := Js.trim (Js.orEmpty (value r)) in
           let stored :=
             storedAvatar (textsOf (profileRecordsToRecordOptions rs clear)) in
           if (group r == media) && Js.truthy v then v
           else if Js.truthy stored then stored else v)].
Proof. by move=> key_r; rewrite avatar_written // newAvatar_closed. Qed.

Lemma avatar_rule_witness :
  avatarEntries (textsOf (profileRecordsToRecordOptions
                            (rcons [:: avatar_A; text_a1] avatar_other_B) false))
  = [:: Text.mk s_avatar "A"].
Proof. by rewrite (@avatar_rule [:: avatar_A; text_a1] avatar_other_B false). Defined.

(** X17: an avatar record never empties the avatar: when the accumulated
    avatar is not empty, the avatar entry is not empty after the record
    either, be the record's value empty or missing. *)
Theorem avatar_never_emptied (rs : seq ProfileRecord) (r : ProfileRecord)
    (clear : bool) :
  key r = s_avatar ->
  Js.truthy (storedAvatar (textsOf (profileRecordsToRecordOptions rs clear))) ->
  Js.truthy
    (storedAvatar (textsOf (profileRecordsToRecordOptions (rcons rs r) clear))).
Proof.
move=> key_r stored.
have := avatar_written rs clear key_r.
rewrite /storedAvatar /avatarEntries.
set ts := textsOf (profileRecordsToRecordOptions (rcons rs r) clear).
elim: ts => //= t ts IH; case: ifP => [_ [-> _] /=|_]; last exact: IH.
by rewrite newAvatar_closed /= stored; case: ifP => // /andP[].
Qed.

Lemma avatar_never_emptied_witness :
  Js.truthy
    (storedAvatar
       (textsOf (profileRecordsToRecordOptions
                   (rcons [:: avatar_A] avatar_empty) false))).
Proof. by apply: avatar_never_emptied. Defined.

(** ** The options builder: empty values and empty keys *)

Lemma storedAvatar_empty (ts : seq Text.t) :
  all (fun t => Text.value t == EmptyString) ts -> storedAvatar ts = EmptyString.
Proof.
move=> /allP empty; rewrite /storedAvatar.
case found: (Js.find _ ts) => [t|] //=.
exact/eqP/empty/(find_mem found).
Qed.

(** X18: from records whose values are all empty or missing, the payload
    holds empty values only: every text entry, the avatar entry included,
    every coin entry, and the content hash when there is one. *)
Theorem options_of_tombstones (rs : seq ProfileRecord) (clear : bool) :
  all (fun r => ~~ Js.otruthy (value r)) rs ->
  [/\ all (fun t => Text.value t == EmptyString)
          (textsOf (profileRecordsToRecordOptions rs clear)),
      all (fun c => Coin.value c == EmptyString)
          (coinsOf (profileRecordsToRecordOptions rs clear))
    & contentHash (profileRecordsToRecordOptions rs clear)
      = if has isContenthashRecord rs then Some EmptyString else None].
Proof.
have empty_value r : ~~ Js.otruthy (value r) -> Js.orEmpty (value r) = EmptyString.
  by case: (value r) => [v|] //= /negbNE/eqP.
elim/last_ind: rs => [|rs r IH] //.
rewrite all_rcons => /andP[empty_r /IH[IHt IHc IHh]].
rewrite options_rcons has_rcons; split.
- rewrite textsOf_reducer; case: (textKey r) => [k|] //.
  apply: all_upsert => //=; case: ifP => _; rewrite ?empty_value //.
  by rewrite newAvatar_closed /= storedAvatar_empty // empty_value //= andbF.
- rewrite coinsOf_reducer; case: ifP => // _.
  by apply: all_upsert => //=; rewrite empty_value.
- by rewrite contentHash_reducer; case: ifP => // _; rewrite empty_value.
Qed.

Lemma options_of_tombstones_witness :
  all (fun t => Text.value t == EmptyString)
      (textsOf (profileRecordsToRecordOptions
                  (deletedRecords [::] [:: avatar_A; text_a1; addr_eth1]) true)).
Proof.
by have [] :=
  @options_of_tombstones (deletedRecords [::] [:: avatar_A; text_a1; addr_eth1])
    true isT.
Defined.

(** X19: the empty-key guard looks at the untrimmed key.  When no record
    has a key made of blanks only, no text entry has an empty key; but a
    record of type text whose key is made of blanks only is stored under the
    empty key. *)
Theorem text_keys_not_empty (rs : seq ProfileRecord) (clear : bool) :
  (all (fun r => (key r == EmptyString) || (Js.trim (key r) != EmptyString)) rs ->
   all (fun t => Text.key t != EmptyString)
       (textsOf (profileRecordsToRecordOptions rs clear)))
  /\ (forall r, isTextRecord r -> Js.trim (key r) = EmptyString ->
        Text.mk EmptyString (Js.trim (Js.orEmpty (value r)))
          \in textsOf (profileRecordsToRecordOptions (rcons rs r) clear)).
Proof.
split.
- move=> /allP no_blank.
  rewrite -(all_map Text.key (fun k => k != EmptyString)) text_keys all_undup.
  apply/allP=> k; rewrite mem_pmap => /mapP[r r_in]; rewrite /textKey.
  have := no_blank r r_in; case: (key r == EmptyString) => //=.
  case: (key r == s_avatar); first by move=> _ [->].
  by case: (type r == s_text) => // not_blank [->].
- move=> r /and3P[/negbTE key_r /negbTE not_avatar text_r] blank.
  rewrite options_rcons textsOf_reducer /textKey key_r not_avatar text_r blank.
  by rewrite mem_cat mem_head orbT.
Qed.

Lemma text_keys_not_empty_witness :
  all (fun t => Text.key t != EmptyString)
      (textsOf (profileRecordsToRecordOptions
                  [:: empty_key; text_a1; avatar_A] false))
  /\ Text.mk EmptyString "x"
       \in textsOf (profileRecordsToRecordOptions
                      (rcons [:: text_a1] blank_key) false).
Proof.
split.
- by have [H _] := text_keys_not_empty [:: empty_key; text_a1; avatar_A] false;
    apply: H.
- by have [_ H] := text_keys_not_empty [:: text_a1] false;
    apply: (H blank_key).
Defined.

(** ** The classifier: what it produces *)

Lemma count_none (T : Type) (p : pred T) (s : seq T) :
  all (fun x => ~~ p x) s -> count p s = 0.
Proof. by elim: s => //= x s IH /andP[/negbTE-> /IH->]. Qed.

Section ClassifierInvariants.

Variables ContentHash Abi : Type.
Variable sortValues : ProfileRecordGroup -> option (string -> option Z).
Variable toLowerCase : string -> string.
Variables supportedGeneralRecordKeys supportedAccounts : seq string.
Variable contentHashToString : option ContentHash -> string.
Variable getProtocolType : string -> option string.
Variable getInternalCodec : string -> option string.
Variable JSON_stringify : Abi -> string.
Variable engine : SortEngine.

Local Notation classify :=
  (profileToProfileRecords sortValues toLowerCase supportedGeneralRecordKeys
     supportedAccounts contentHashToString getProtocolType getInternalCodec
     JSON_stringify engine).
Local Notation textsPart :=
  (profileTexts supportedGeneralRecordKeys supportedAccounts).
Local Notation websitePart :=
  (profileWebsite contentHashToString getProtocolType getInternalCodec).
Local Notation abiPart := (profileAbi JSON_stringify).

Lemma texts_classified (profile : option (Profile ContentHash Abi)) :
  all (fun r => [&& wellClassified r, type r == s_text,
                    group r != address, group r != website
                  & group r != other])
      (textsPart profile).
Proof.
rewrite /profileTexts; case: (obind _ profile) => [ts|] //=.
elim: ts => //= t ts ->; rewrite andbT /wellClassified.
case avatar_t: (text_key t == s_avatar) => /=; first by rewrite avatar_t.
case: (text_key t \in supportedGeneralRecordKeys) => /=.
  by rewrite avatar_t.
by case: (text_key t \in supportedAccounts) => /=; rewrite avatar_t.
Qed.

Lemma addresses_classified (profile : option (Profile ContentHash Abi)) :
  all (fun r => [&& wellClassified r, type r == s_addr & group r == address])
      (profileAddresses profile).
Proof.
rewrite /profileAddresses; case: (obind _ profile) => [cs|] //=.
by elim: cs => //= c cs ->.
Qed.

Lemma website_classified (profile : option (Profile ContentHash Abi)) :
  all (fun r => [&& wellClassified r, type r == s_contenthash
                  & group r == website])
      (websitePart profile)
  /\ size (websitePart profile) <= 1.
Proof.
rewrite /profileWebsite; case: (obind _ _) => [k|] //.
by rewrite /Js.truthy /wellClassified; case: ifP => //= ->.
Qed.

Lemma abi_classified (profile : option (Profile ContentHash Abi)) :
  all (fun r => [&& wellClassified r, type r == s_abi & group r == other])
      (abiPart profile)
  /\ size (abiPart profile) <= 1.
Proof. by rewrite /profileAbi; case: (obind id _). Qed.

Lemma parts_well_classified (profile : option (Profile ContentHash Abi)) :
  all wellClassified
      (textsPart profile ++ profileAddresses profile
         ++ websitePart profile ++ abiPart profile).
Proof.
rewrite !all_cat.
have [website_ok _] := website_classified profile.
have [abi_ok _] := abi_classified profile.
apply/and4P; split.
- by apply: sub_all (texts_classified profile) => r /andP[].
- by apply: sub_all (addresses_classified profile) => r /andP[].
- by apply: sub_all website_ok => r /andP[].
- by apply: sub_all abi_ok => r /andP[].
Qed.

(** X20: every record the classifier returns carries a defined value and a
    type that fits its group: text records are in media, general, social or
    custom, and in media exactly when their key is 'avatar'; addr records are
    in address; the contenthash record is in website and has a non-empty key;
    the abi record is in other under the key 'abi'. *)
Theorem classify_well_classified (profile : option (Profile ContentHash Abi)) :
  all wellClassified (classify profile).
Proof.
rewrite /profileToProfileRecords (perm_all _ (Array_sort_perm _ _ _)).
exact: parts_well_classified.
Qed.

(** X21: the classifier returns at most one record of group website and at
    most one of group other, whatever the texts and coins of the profile. *)
Theorem classify_single_website (profile : option (Profile ContentHash Abi)) :
  count (fun r => group r == website) (classify profile) <= 1
  /\ count (fun r => group r == other) (classify profile) <= 1.
Proof.
rewrite /profileToProfileRecords !(permP (Array_sort_perm _ _ _)) !count_cat.
have [website_ok website_size] := website_classified profile.
have [abi_ok abi_size] := abi_classified profile.
have /allP texts_ok := texts_classified profile.
have /allP addresses_ok := addresses_classified profile.
have texts_website : count (fun r => group r == website) (textsPart profile) = 0.
  by apply/count_none/allP => r /texts_ok /and5P[].
have texts_other : count (fun r => group r == other) (textsPart profile) = 0.
  by apply/count_none/allP => r /texts_ok /and5P[].
have addresses_website :
    count (fun r => group r == website) (profileAddresses profile) = 0.
  by apply/count_none/allP => r /addresses_ok /and3P[_ _ /eqP->].
have addresses_other :
    count (fun r => group r == other) (profileAddresses profile) = 0.
  by apply/count_none/allP => r /addresses_ok /and3P[_ _ /eqP->].
have abi_website : count (fun r => group r == website) (abiPart profile) = 0.
  by apply/count_none/allP => r /(allP abi_ok) /and3P[_ _ /eqP->].
have website_other : count (fun r => group r == other) (websitePart profile) = 0.
  by apply/count_none/allP => r /(allP website_ok) /and3P[_ _ /eqP->].
rewrite texts_website texts_other addresses_website addresses_other.
rewrite abi_website website_other addn0 !add0n.
by split; apply: leq_trans (count_size _ _) _.
Qed.

(** X23: when no text of the profile has the key 'avatar', the list the
    classifier returns goes through the form and back unchanged. *)
Theorem classify_through_form (profile : option (Profile ContentHash Abi)) :
  all (fun t => text_key t != s_avatar)
      (odflt [::] (obind (@profile_texts _ _) profile)) ->
  throughForm (classify profile) = classify profile.
Proof.
move=> no_avatar; apply: form_round_trip_eq.
- rewrite /profileToProfileRecords (perm_all _ (Array_sort_perm _ _ _)).
  rewrite !all_cat.
  have [/allP website_ok _] := website_classified profile.
  have [/allP abi_ok _] := abi_classified profile.
  apply/and4P; split.
  + rewrite /profileTexts; case: (obind _ profile) no_avatar => [ts|] //=.
    elim: ts => //= t ts IH /andP[/negbTE not_avatar /IH->].
    by rewrite not_avatar /isAvatarMedia /= not_avatar.
  + apply/allP=> r /(allP (addresses_classified profile)) /and3P[_ _ /eqP].
    by rewrite /isAvatarMedia andbC => ->.
  + apply/allP=> r /website_ok /and3P[_ _ /eqP].
    by rewrite /isAvatarMedia andbC => ->.
  + apply/allP=> r /abi_ok /and3P[_ _ /eqP].
    by rewrite /isAvatarMedia andbC => ->.
- rewrite /profileToProfileRecords (perm_all _ (Array_sort_perm _ _ _)).
  by apply: sub_all (parts_well_classified profile) => r /andP[].
Qed.

End ClassifierInvariants.

Lemma classify_through_form_witness :
  throughForm
    (profileToProfileRecords sampleSortValues lowerString
       [:: "name"; "url"]%string [:: "com.twitter"%string]
       (fun _ : option unit => EmptyString) (fun _ => None) (fun _ => None)
       (fun _ : unit => EmptyString) keepOrder (Some plainProfile))
  = profileToProfileRecords sampleSortValues lowerString
      [:: "name"; "url"]%string [:: "com.twitter"%string]
      (fun _ : option unit => EmptyString) (fun _ => None) (fun _ => None)
      (fun _ : unit => EmptyString) keepOrder (Some plainProfile).
Proof. by apply: classify_through_form. Defined.

(** ** What the diff and the options builder do not look at *)

Lemma find_map (T U : Type) (g : T -> U) (p : pred U) (s : seq T) :
  Js.find p [seq g x | x <- s] = omap g (Js.find (preim g p) s).
Proof. by elim: s => //= x s ->; case: ifP. Qed.

Lemma specDeleted_map (f : ProfileRecord -> ProfileRecord)
    (current : seq ProfileRecord) (p : ProfileRecord) :
  (forall r, key (f r) = key r) -> (forall r, group (f r) = group r) ->
  specDeleted [seq f c | c <- current] p = specDeleted current p.
Proof.
move=> key_f group_f; rewrite /specDeleted !has_map.
by congr (if _ then ~~ _ else ~~ _); apply: eq_has => c /=;
  rewrite ?key_f group_f.
Qed.

(** X24: the diff does not look at the type of a record.  Replacing the
    types in the current and in the previous list leaves the selection of
    changes and of deletions as it is: the diff of the retyped lists is the
    changes with the new current types followed by the tombstones with the
    new previous types. *)
Theorem diff_ignores_type (t1 t2 : string -> string)
    (current previous : seq ProfileRecord) :
  getProfileRecordsDiff [seq retype t1 c | c <- current]
    [seq retype t2 p | p <- previous]
  = [seq retype t1 c | c <- updatedAndNewRecords current previous]
    ++ [seq retype t2 d | d <- deletedRecords current previous].
Proof.
rewrite /getProfileRecordsDiff; congr cat.
- rewrite !updatedAndNewRecords_filter filter_map; congr map.
  apply: eq_filter => c; rewrite /specChanged /= has_map find_map.
  by case: (Js.find _ previous).
- rewrite !deletedRecords_spec filter_map -!map_comp.
  have same_test :
      preim (retype t2) (specDeleted [seq retype t1 c | c <- current])
      =1 specDeleted current.
    by move=> p; rewrite /= specDeleted_map.
  by rewrite (eq_filter same_test); apply: eq_map.
Qed.

(** X25: the diff treats a missing value as the empty string: giving every
    record of both lists a defined value, the empty string for a missing
    one, does not change the diff. *)
Theorem diff_ignores_missing_value (current previous : seq ProfileRecord) :
  getProfileRecordsDiff [seq normalizedRecord c | c <- current]
    [seq normalizedRecord p | p <- previous]
  = getProfileRecordsDiff current previous.
Proof.
rewrite /getProfileRecordsDiff; congr cat.
- rewrite !updatedAndNewRecords_filter filter_map.
  have same_test c :
      specChanged [seq normalizedRecord p | p <- previous] (normalizedRecord c)
      = specChanged previous c.
    rewrite /specChanged /= has_map find_map.
    case: (value c) => [v|] //=; case truthy_v: (Js.truthy v) => //=.
    congr (_ || _); case: (Js.find _ previous) => [p|] //=.
    by case: (value p) => [w|] //=; case: v truthy_v.
  rewrite (eq_filter same_test).
  rewrite -[RHS]map_id; apply/eq_in_map => c.
  rewrite mem_filter /specChanged => /andP[/andP[truthy_c _] _].
  by case: c truthy_c => k t g [v|].
- rewrite !deletedRecords_spec filter_map -!map_comp.
  have same_test :
      preim normalizedRecord
        (specDeleted [seq normalizedRecord c | c <- current])
      =1 specDeleted current.
    by move=> p; rewrite /= specDeleted_map.
  by rewrite (eq_filter same_test); apply: eq_map.
Qed.

Lemma reducer_regroup (g : ProfileRecordGroup -> ProfileRecordGroup)
    (o : RecordOptions) (r : ProfileRecord) :
  key r != s_avatar ->
  recordOptionsReducer o (regroup g r) = recordOptionsReducer o r.
Proof. by rewrite /recordOptionsReducer /= => /negbTE->. Qed.

Lemma reducer_normalized (o : RecordOptions) (r : ProfileRecord) :
  recordOptionsReducer o (normalizedRecord r) = recordOptionsReducer o r.
Proof. by rewrite /recordOptionsReducer /=. Qed.

(** X26: apart from avatar records, the options builder does not look at
    the group: renaming the groups of a list without a record of key 'avatar'
    leaves the payload unchanged. *)
Theorem options_ignore_group (g : ProfileRecordGroup -> ProfileRecordGroup)
    (rs : seq ProfileRecord) (clear : bool) :
  all (fun r => key r != s_avatar) rs ->
  profileRecordsToRecordOptions [seq regroup g r | r <- rs] clear
  = profileRecordsToRecordOptions rs clear.
Proof.
elim/last_ind: rs => [|rs r IH] //.
rewrite all_rcons map_rcons !options_rcons => /andP[not_avatar /IH->].
exact: reducer_regroup.
Qed.

Lemma options_ignore_group_witness :
  profileRecordsToRecordOptions
    [seq regroup (fun _ => custom) r | r <- [:: text_a1; addr_eth1; ipns_h2]]
    false
  = profileRecordsToRecordOptions [:: text_a1; addr_eth1; ipns_h2] false.
Proof. by apply: options_ignore_group. Defined.

(** X27: the options builder treats a missing value as the empty string:
    the payload of a list is the payload of the list in which every missing
    value is replaced by the empty string. *)
Theorem options_ignore_missing_value (rs : seq ProfileRecord) (clear : bool) :
  profileRecordsToRecordOptions [seq normalizedRecord r | r <- rs] clear
  = profileRecordsToRecordOptions rs clear.
Proof.
elim/last_ind: rs => [|rs r IH] //.
by rewrite map_rcons !options_rcons IH reducer_normalized.
Qed.

(** ** The fallback order of the sort *)

Section FallbackOrder.

Variable sortValues : ProfileRecordGroup -> option (string -> option Z).
Variable toLowerCase : string -> string.

(** X28: two records whose lowercased keys the priority table does not
    hold, neither as entries of its own nor as inherited members, are
    compared by their groups alone, in the order media, general, social,
    address, website, other, custom: the comparator returns the difference of
    the two group defaults, and a value <= 0 exactly when the first group
    does not come later in that order. *)
Theorem sort_fallback_order (a b : ProfileRecord) :
  tableValue sortValues toLowerCase a = Missing ->
  tableValue sortValues toLowerCase b = Missing ->
  sortProfileRecords sortValues toLowerCase a b
  = Finite (unknownGroupValue (group a) - unknownGroupValue (group b))
  /\ leZero (sortProfileRecords sortValues toLowerCase a b)
     = (index (group a)
          [:: media; general; social; address; website; other; custom]
        <= index (group b)
             [:: media; general; social; address; website; other; custom]).
Proof.
rewrite /sortProfileRecords /recordSortValue => -> ->.
by case: (group a); case: (group b).
Qed.

End FallbackOrder.

Lemma sort_fallback_order_witness :
  leZero (sortProfileRecords sampleSortValues lowerString social_x text_pad_a3)
  = (index (group social_x)
       [:: media; general; social; address; website; other; custom]
     <= index (group text_pad_a3)
          [:: media; general; social; address; website; other; custom]).
Proof.
by have [] := @sort_fallback_order sampleSortValues lowerString social_x
  text_pad_a3 erefl erefl.
Defined.
